(** * ConeCone: apex search for cone-shaped landforms (FnConeCone.py)

    A shallow embedding of the four functions of [FnConeCone.py]:
    [radius], [errorSpearman], [errorPolynome] and [conecone_CenterProfile],
    together with the parts of numpy / scipy they call.

    The Python code computes on numpy arrays of binary64 numbers.  The
    embedding is written once over an interface [Num] of the arithmetic the
    code uses.  The statements about the code are proved for every number
    type, under hypotheses that binary64 data without NaN satisfy, and are
    instantiated at binary64 ([float]).  The instance at the real numbers
    ([R]) is kept for a few statements whose conclusion does not depend on
    rounding. *)

From Stdlib Require Import List Arith Bool Lia ZArith Permutation Sorted.
From Stdlib Require Import Reals Lra Psatz.
From Stdlib Require Import Floats.PrimFloat.
Import ListNotations.

Set Implicit Arguments.

(** ** Python exceptions *)

(** numpy's [LinAlgError] is a subclass of [ValueError] and is modelled as
    [ValueError]. *)
Inductive exception : Type :=
| ValueError
| IndexError
| TypeError.

Inductive result (A : Type) : Type :=
| Ok (a : A)
| Raise (e : exception).

Arguments Ok {A} a.
Arguments Raise {A} e.

Definition bind {A B : Type} (m : result A) (k : A -> result B) : result B :=
  match m with
  | Ok a => k a
  | Raise e => Raise e
  end.

Notation "x <- m ;; k" := (bind m (fun x => k))
  (at level 61, m at next level, right associativity).
Notation "' pat <- m ;; k" := (bind m (fun x => match x with pat => k end))
  (at level 61, pat pattern, m at next level, right associativity).

(** ** The arithmetic used by the code *)

Class Num (F : Type) : Type := {
  fzero : F;
  fone : F;
  fnan : F;
  fadd : F -> F -> F;
  fsub : F -> F -> F;
  fmul : F -> F -> F;
  fdiv : F -> F -> F;
  fsqrt : F -> F;
  fle : F -> F -> bool;
  flt : F -> F -> bool;
  feq : F -> F -> bool
}.

Declare Scope num_scope.
Delimit Scope num_scope with num.
Infix "+" := fadd : num_scope.
Infix "-" := fsub : num_scope.
Infix "*" := fmul : num_scope.
Infix "/" := fdiv : num_scope.
Infix "<=?" := fle : num_scope.
Infix "<?" := flt : num_scope.
Infix "=?" := feq : num_scope.

(** A number type whose comparison is a total order, as the real numbers
    are.  binary64 is not one: NaN compares with nothing and the two zeros
    compare equal.  The statements instantiated at binary64 ask for an
    order on the numbers at hand only ([comparable] and the like below). *)
Class TotalOrder {F : Type} (N : Num F) : Prop := {
  fle_total : forall a b : F, fle a b = true \/ fle b a = true;
  fle_trans : forall a b c : F, fle a b = true -> fle b c = true -> fle a c = true;
  fle_antisym : forall a b : F, fle a b = true -> fle b a = true -> a = b
}.

(** binary64, as numpy computes *)
#[export] Instance float_Num : Num float := {
  fzero := 0%float;
  fone := 1%float;
  fnan := PrimFloat.nan;
  fadd := PrimFloat.add;
  fsub := PrimFloat.sub;
  fmul := PrimFloat.mul;
  fdiv := PrimFloat.div;
  fsqrt := PrimFloat.sqrt;
  fle := PrimFloat.leb;
  flt := PrimFloat.ltb;
  feq := PrimFloat.eqb
}.

(** exact real arithmetic; [0 / 0] stands for the undefined value *)
#[export] Instance R_Num : Num R := {
  fzero := 0%R;
  fone := 1%R;
  fnan := (0 / 0)%R;
  fadd := Rplus;
  fsub := Rminus;
  fmul := Rmult;
  fdiv := Rdiv;
  fsqrt := R_sqrt.sqrt;
  fle := fun a b => if Rle_dec a b then true else false;
  flt := fun a b => if Rlt_dec a b then true else false;
  feq := fun a b => if Req_dec_T a b then true else false
}.

(** ** numpy arrays (one-dimensional) *)

Section Arrays.
Context {F : Type} {N : Num F}.
Local Open Scope num_scope.

(** [x ** 2] on an array: numpy squares by multiplying. *)
Definition fsqr (a : F) : F := a * a.

Fixpoint of_nat (n : nat) : F :=
  match n with
  | O => fzero
  | S k => of_nat k + fone
  end.

Fixpoint zip_with (f : F -> F -> F) (a b : list F) : list F :=
  match a, b with
  | u :: a', v :: b' => f u v :: zip_with f a' b'
  | _, _ => []
  end.

(** Element-wise binary operation with numpy's broadcasting of two 1-D
    arrays: equal lengths pair up, a length-1 array is stretched, any
    other pair of lengths is a [ValueError]. *)
Definition broadcast2 (f : F -> F -> F) (a b : list F) : result (list F) :=
  match a, b with
  | [u], _ => Ok (map (f u) b)
  | _, [v] => Ok (map (fun u => f u v) a)
  | _, _ => if Nat.eqb (length a) (length b)
            then Ok (zip_with f a b)
            else Raise ValueError
  end.

(** Length of the broadcast of two 1-D shapes, when there is one. *)
Definition broadcast_len (n m : nat) : option nat :=
  if Nat.eqb n 1 then Some m
  else if Nat.eqb m 1 then Some n
  else if Nat.eqb n m then Some n
  else None.

(** [np.argsort]: the indices that sort the array.  Sorting the pairs
    (value, index) by value with an insertion sort, which keeps equal
    values in input order.  numpy's default sort is not stable and gives
    no order among equal values; it puts NaN last, which a sort by [<=]
    does not.  No theorem below depends on the
    order among equal values, and those about ascending order are about
    data without NaN; the examples with equal distances show the order of
    a stable sort. *)
Fixpoint insert_key (p : F * nat) (l : list (F * nat)) : list (F * nat) :=
  match l with
  | [] => [p]
  | q :: l' => if fst p <=? fst q then p :: q :: l' else q :: insert_key p l'
  end.

Fixpoint sort_keys (l : list (F * nat)) : list (F * nat) :=
  match l with
  | [] => []
  | p :: l' => insert_key p (sort_keys l')
  end.

Definition enumerate (a : list F) : list (F * nat) :=
  combine a (seq 0 (length a)).

Definition argsort (a : list F) : list nat :=
  map snd (sort_keys (enumerate a)).

(** [a[index]] with an integer index array: an index past the end is an
    [IndexError]. *)
Fixpoint take (a : list F) (index : list nat) : result (list F) :=
  match index with
  | [] => Ok []
  | i :: index' =>
      match nth_error a i with
      | Some v => rest <- take a index' ;; Ok (v :: rest)
      | None => Raise IndexError
      end
  end.

(** *** radius *)
Definition radius (x y z : list F) (xa ya : F) : result (list F * list F) :=
  s <- broadcast2 fadd (map (fun u => fsqr (u - xa)) x)
                       (map (fun v => fsqr (v - ya)) y) ;;
  let r := map fsqrt s in
  let index := argsort r in
  r_sorted <- take r index ;;
  z_sorted <- take z index ;;
  Ok (r_sorted, z_sorted).

(** *** numpy.polyfit(..., full=True)

    [polyfit] checks its arguments, builds the Vandermonde matrix, divides
    every column by its Euclidean norm and calls [numpy.linalg.lstsq].  The
    checks, the scaling and the rule deciding whether a residual is
    reported are modelled as numpy has them.  The solver itself (LAPACK's
    singular value decomposition) is not: [lstsq] below is its contract in
    exact arithmetic, the rank of the matrix and the squared norm of the
    part of the right-hand side orthogonal to the columns.  In binary64
    numpy decides the rank with the threshold [rcond] on the computed
    singular values and returns a rounded residual, so no statement below
    is about the value of a residual in binary64 or about the rank of an
    ill-conditioned matrix.  The coefficients, the singular values and
    [rcond] are dropped by [errorPolynome] and are not modelled. *)

(** Sum of an array.  numpy and BLAS add in an order of their own; the
    order matters to no statement below: the sums of ranks and of products
    of centred ranks taken by [spearmanr] are sums of small multiples of
    1/4, which binary64 adds without rounding. *)
Definition vsum (l : list F) : F := fold_right fadd fzero l.

Definition dot (a b : list F) : F := vsum (zip_with fmul a b).

(** [v - c * q] *)
Definition axpy (c : F) (q v : list F) : list F :=
  zip_with (fun vi qi => vi - c * qi) v q.

Fixpoint fpow (a : F) (k : nat) : F :=
  match k with
  | O => fone
  | S k' => a * fpow a k'
  end.

(** [np.vander(x, order)] as the list of its columns: decreasing powers. *)
Definition vander (x : list F) (order : nat) : list (list F) :=
  map (fun k => map (fun a => fpow a k) x) (rev (seq 0 order)).

(** Remove from [v] its components along the orthogonal vectors [basis]. *)
Definition project_out (basis : list (list F)) (v : list F) : list F :=
  fold_left (fun w q => axpy (dot w q / dot q q) q w) basis v.

Definition is_zero_vec (v : list F) : bool :=
  forallb (fun a => a =? fzero) v.

Fixpoint orthogonalise (cols basis : list (list F)) : list (list F) :=
  match cols with
  | [] => basis
  | c :: cols' =>
      let q := project_out basis c in
      orthogonalise cols' (if is_zero_vec q then basis else basis ++ [q])
  end.

Record lstsq_result : Type := {
  residuals : list F;
  rank : nat
}.

(** [numpy.linalg.lstsq(a, b)] for an [m] x [n] matrix given by its
    columns: the sum of squared residuals is reported only when the matrix
    has full column rank and more rows than columns
    ([if rank != n or m <= n: resids = array([])]). *)
Definition lstsq (m : nat) (cols : list (list F)) (b : list F) : lstsq_result :=
  let n := length cols in
  let basis := orthogonalise cols [] in
  let e := project_out basis b in
  {| residuals := if Nat.eqb (length basis) n && Nat.ltb n m
                  then [dot e e] else [];
     rank := length basis |}.

Definition is_nan (v : F) : bool := negb (v =? v).

(** [lhs /= sqrt((lhs*lhs).sum(axis=0))], one column *)
Definition scale_column (c : list F) : list F :=
  let scale := fsqrt (dot c c) in map (fun a => a / scale) c.

(** A column of zeros, a NaN or an infinity in [x] leave a NaN in the
    scaled matrix, on which the solver fails with [LinAlgError], a
    [ValueError]. *)
Definition polyfit (x y : list F) (deg : Z) : result lstsq_result :=
  if (deg <? 0)%Z then Raise ValueError
  else if Nat.eqb (length x) 0 then Raise TypeError
  else if negb (Nat.eqb (length x) (length y)) then Raise TypeError
  else
    let lhs := map scale_column (vander x (Z.to_nat (deg + 1))) in
    if existsb (existsb is_nan) lhs then Raise ValueError
    else Ok (lstsq (length x) lhs y).

(** *** errorPolynome *)
Definition errorPolynome (r z_sorted : list F) (deg : Z) : result (list F) :=
  fit <- polyfit r z_sorted deg ;;
  Ok (residuals fit).

(** *** scipy.stats.spearmanr

    Ranks with ties averaged ([rankdata]), then [np.corrcoef] of the two
    rank vectors: the covariances are multiplied by [1 / (n - 1)], divided
    by the two standard deviations in turn and clipped to [-1, 1]. *)

Definition count (p : F -> bool) (a : list F) : nat := length (filter p a).

Definition half : F := fone / (fone + fone).

(** [rankdata(a)], method average: [.5 * (count[dense] + count[dense - 1]
    + 1)], where for a value [v] the two entries of [count] are the number
    of values not above [v] and the number of values below [v]. *)
Definition rankdata (a : list F) : list F :=
  map (fun v => half * of_nat (count (fun u => u <=? v) a
                               + count (fun u => u <? v) a + 1)) a.

Definition mean (a : list F) : F := vsum a / of_nat (length a).

Definition center (a : list F) : list F :=
  let m := mean a in map (fun v => v - m) a.

(** entry of [np.cov] for two variables observed [length a] times *)
Definition cov (a b : list F) : F :=
  dot (center a) (center b) * (fone / of_nat (length a - 1)%nat).

Definition clip (lo hi v : F) : F :=
  if v <? lo then lo else if hi <? v then hi else v.

(** entry [1, 0] of [np.corrcoef(a, b)] *)
Definition corrcoef (a b : list F) : F :=
  let c := cov b a in
  let c := c / fsqrt (cov b b) in
  let c := c / fsqrt (cov a a) in
  clip (fzero - fone) fone c.

Definition is_constant (a : list F) : bool :=
  match a with
  | [] => true
  | v :: _ => forallb (fun u => v =? u) a
  end.

Section Spearman.
(** the two-sided p-value of a t statistic with [dof] degrees of
    freedom, a special function of scipy *)
Variable ttest_finish : nat -> F -> F.

Definition spearmanr (a b : list F) : result (F * F) :=
  if negb (Nat.eqb (length a) (length b)) then Raise ValueError
  else if Nat.leb (length a) 1 then Ok (fnan, fnan)
  else if is_constant a || is_constant b then Ok (fnan, fnan)
  else if existsb is_nan a || existsb is_nan b then Ok (fnan, fnan)
  else
    let rs := corrcoef (rankdata a) (rankdata b) in
    let dof := (length a - 2)%nat in
    let t := rs * fsqrt (let q := of_nat dof / ((rs + fone) * (fone - rs)) in
                         if q <? fzero then fzero else q) in
    Ok (rs, ttest_finish dof t).

(** *** errorSpearman *)
Definition errorSpearman (r z_sorted : list F) : result F :=
  '(rho, pval) <- spearmanr r z_sorted ;;
  Ok rho.
End Spearman.

(** ** conecone_CenterProfile *)

(** What an objective hands to the minimiser: the rank objective returns a
    number, the linear-fit objective returns the array [residuals]. *)
Inductive objective_value : Type :=
| Scalar (v : F)
| Array (v : list F).

(** The result dictionary; its six keys are fixed. *)
Record CenterProfile : Type := {
  BestCenter_LR_xy : F * F;
  RadiusModel_controlPoint_LR : list F;
  Elevation_controlPoint_LR : list F;
  BestCenter_Sp_xy : F * F;
  RadiusModel_controlPoint_Sp : list F;
  Elevation_controlPoint_Sp : list F
}.

Section Search.
Variable ttest_finish : nat -> F -> F.
(** [scipy.optimize.fmin(func, x0, disp=False)]: the downhill simplex
    search, a function of the objective and of the starting point. *)
Variable fmin : (F * F -> result objective_value) -> F * F -> result (F * F).

Variables control_xUTM_m control_yUTM_m control_z_m : list F.

Definition to_be_minimizedP1 (apex_coord : F * F) : result objective_value :=
  '(rP1, zrP1) <- radius control_xUTM_m control_yUTM_m control_z_m
                    (fst apex_coord) (snd apex_coord) ;;
  res <- errorPolynome rP1 zrP1 1 ;;
  Ok (Array res).

Definition to_be_minimizedSp (apex_coord : F * F) : result objective_value :=
  '(rSp, zrSp) <- radius control_xUTM_m control_yUTM_m control_z_m
                    (fst apex_coord) (snd apex_coord) ;;
  rho <- errorSpearman ttest_finish rSp zrSp ;;
  Ok (Scalar rho).

Definition conecone_CenterProfile (x_center_guess y_center_guess : F)
  : result CenterProfile :=
  BestCenter_P1 <- fmin to_be_minimizedP1 (x_center_guess, y_center_guess) ;;
  BestCenter_Sp <- fmin to_be_minimizedSp (x_center_guess, y_center_guess) ;;
  '(r_P1, zr_P1) <- radius control_xUTM_m control_yUTM_m control_z_m
                      (fst BestCenter_P1) (snd BestCenter_P1) ;;
  '(r_Sp, zr_Sp) <- radius control_xUTM_m control_yUTM_m control_z_m
                      (fst BestCenter_Sp) (snd BestCenter_Sp) ;;
  Ok {| BestCenter_LR_xy := BestCenter_P1;
        RadiusModel_controlPoint_LR := r_P1;
        Elevation_controlPoint_LR := zr_P1;
        BestCenter_Sp_xy := BestCenter_Sp;
        RadiusModel_controlPoint_Sp := r_Sp;
        Elevation_controlPoint_Sp := zr_Sp |}.
End Search.

End Arrays.

Arguments lstsq_result F : clear implicits.
Arguments objective_value F : clear implicits.
Arguments CenterProfile F : clear implicits.

(** ** Vocabulary of the statements *)

Section Vocabulary.
Context {F : Type} {N : Num F}.
Local Open Scope num_scope.

(** planar distance from the control point [(xi, yi)] to the apex *)
Definition distance (xa ya xi yi : F) : F :=
  fsqrt (fsqr (xi - xa) + fsqr (yi - ya)).

Definition distances (x y : list F) (xa ya : F) : list F :=
  zip_with (distance xa ya) x y.

(** the distance as the formula has it:
    sqrt((xi - xa)^2 + (yi - ya)^2), with the squares written out *)
Definition euclid (xa ya xi yi : F) : F :=
  fsqrt ((xi - xa) * (xi - xa) + (yi - ya) * (yi - ya)).

(** the distances of the control points, in input order *)
Definition euclid_all (x y : list F) (xa ya : F) : list F :=
  map (fun i => euclid xa ya (nth i x fzero) (nth i y fzero))
      (seq 0 (length x)).

(** the array [a] read at the positions [index] *)
Definition gather (a : list F) (index : list nat) : list F :=
  map (fun i => nth i a fzero) index.

Definition ascending (l : list F) : Prop :=
  StronglySorted (fun a b => fle a b = true) l.

(** *** Order hypotheses on data

    The comparison of a number type need not be an order (NaN compares
    with nothing).  The statements about sorted output ask that it be one
    on the numbers at hand: for binary64 these hold of data without NaN. *)

Definition comparable (l : list F) : Prop :=
  (forall a b, In a l -> In b l -> fle a b = true \/ fle b a = true) /\
  (forall a b c, In a l -> In b l -> In c l ->
     fle a b = true -> fle b c = true -> fle a c = true).

Definition antisymmetric_on (l : list F) : Prop :=
  forall a b, In a l -> In b l -> fle a b = true -> fle b a = true -> a = b.

(** [<] and [==] agree with [<=] on the numbers of [l] *)
Definition coherent (l : list F) : Prop :=
  (forall a b, In a l -> In b l -> flt a b = negb (fle b a)) /\
  (forall a b, In a l -> In b l -> feq a b = fle a b && fle b a).

Definition comparableb (l : list F) : bool :=
  forallb (fun a => forallb (fun b => fle a b || fle b a) l) l
  && forallb (fun a => forallb (fun b => forallb (fun c =>
       implb (fle a b && fle b c) (fle a c)) l) l) l.

Definition coherentb (l : list F) : bool :=
  forallb (fun a => forallb (fun b =>
    Bool.eqb (flt a b) (negb (fle b a))
    && Bool.eqb (feq a b) (fle a b && fle b a)) l) l.

(** *** Spearman's rho as it is defined

    The rank of a value is its position in the sample put in ascending
    order, counted from 1; equal values share the mean of the positions
    they occupy, which is the mean of the first and of the last. *)

Fixpoint first_index (v : F) (arr : list F) : nat :=
  match arr with
  | [] => O
  | u :: arr' => if u =? v then O else S (first_index v arr')
  end.

Definition average_rank (a : list F) (v : F) : F :=
  let arr := gather a (argsort a) in
  let first := S (first_index v arr) in
  let last := (first + count (fun u => feq u v) a - 1)%nat in
  half * of_nat (first + last).

Definition average_ranks (a : list F) : list F := map (average_rank a) a.

(** Pearson's correlation coefficient, by its formula *)
Definition pearson (a b : list F) : F :=
  dot (center a) (center b)
  / fsqrt (dot (center a) (center a) * dot (center b) (center b)).

Definition spearman_rho (r z : list F) : F :=
  pearson (average_ranks r) (average_ranks z).

(** [a] holds two values that differ *)
Definition varies (a : list F) : Prop :=
  exists u v, In u a /\ In v a /\ feq u v = false.

(** -1 and 1 are in order, as bounds of a clip should be *)
Definition unit_bounds_ordered : Prop :=
  flt (fzero - fone) (fzero - fone) = false /\
  flt fone (fzero - fone) = false /\
  flt fone fone = false.

(** the constant column of the design matrix *)
Definition ones (r : list F) : list F := map (fun _ => fone) r.

(** *** The minimiser

    [scipy.optimize.fmin] is a parameter of [conecone_CenterProfile].  What
    is used of it is how it starts: it evaluates the objective at the
    starting point first, an exception raised there ends the call, and so
    does a value that is neither a number nor an array of one number. *)
Class StartsAtGuess
  (fmin : (F * F -> result (objective_value F)) -> F * F -> result (F * F))
  : Prop := {
  fmin_start_raises : forall func x0 e,
    func x0 = Raise e -> fmin func x0 = Raise e;
  fmin_start_not_scalar : forall func x0 v,
    func x0 = Ok (Array v) -> length v <> 1%nat ->
    exists e, fmin func x0 = Raise e
}.

(** a minimiser that stops at once: it evaluates the objective at the
    starting point and returns that point *)
Definition fmin_no_iteration (func : F * F -> result (objective_value F))
  (x0 : F * F) : result (F * F) :=
  v <- func x0 ;;
  match v with
  | Scalar _ => Ok x0
  | Array [_] => Ok x0
  | Array _ => Raise ValueError
  end.
End Vocabulary.

(** * Properties *)

(** ** Arrays, indexing and sorting *)

Section ArrayFacts.
Context {F : Type} {N : Num F}.
Local Open Scope num_scope.

Lemma zip_with_length (f : F -> F -> F) (a b : list F) :
  length a = length b -> length (zip_with f a b) = length a.
Proof.
  revert b; induction a as [|u a IH]; intros [|v b] E; simpl in *;
    try discriminate; auto.
Qed.

Lemma zip_with_nth (f : F -> F -> F) (a b : list F) (d : F) (i : nat) :
  length a = length b -> (i < length a)%nat ->
  nth i (zip_with f a b) d = f (nth i a d) (nth i b d).
Proof.
  revert b i; induction a as [|u a IH]; intros [|v b] i E Hi; simpl in *;
    try discriminate; try lia.
  destruct i; [reflexivity | apply IH; lia].
Qed.

Lemma zip_with_map (f : F -> F -> F) (g h : F -> F) (a b : list F) :
  zip_with f (map g a) (map h b) = zip_with (fun u v => f (g u) (h v)) a b.
Proof.
  revert b; induction a as [|u a IH]; intros [|v b]; simpl; auto.
  now rewrite IH.
Qed.

Lemma map_zip_with (f : F -> F -> F) (g : F -> F) (a b : list F) :
  map g (zip_with f a b) = zip_with (fun u v => g (f u v)) a b.
Proof.
  revert b; induction a as [|u a IH]; intros [|v b]; simpl; auto.
  now rewrite IH.
Qed.

Lemma broadcast2_same_length (f : F -> F -> F) (a b : list F) :
  length a = length b -> broadcast2 f a b = Ok (zip_with f a b).
Proof.
  intros E. unfold broadcast2.
  destruct a as [|u [|u' a]]; destruct b as [|v [|v' b]];
    simpl in E; try discriminate; try reflexivity.
  simpl length. rewrite E, Nat.eqb_refl. reflexivity.
Qed.

Lemma broadcast2_shape (f : F -> F -> F) (a b : list F) :
  match broadcast_len (length a) (length b) with
  | Some n => exists s, broadcast2 f a b = Ok s /\ length s = n
  | None => broadcast2 f a b = Raise ValueError
  end.
Proof.
  unfold broadcast_len, broadcast2.
  destruct a as [|u [|u' a]]; destruct b as [|v [|v' b]]; simpl;
    try reflexivity;
    try (eexists; split; [reflexivity|]; simpl;
         rewrite ?length_map; reflexivity).
  destruct (Nat.eqb (length a) (length b)) eqn:E.
  - eexists; split; [reflexivity|]. simpl. apply Nat.eqb_eq in E.
    now rewrite zip_with_length.
  - reflexivity.
Qed.

(** *** Fancy indexing *)

Lemma take_spec (a : list F) (index : list nat) :
  take a index =
  if forallb (fun i => Nat.ltb i (length a)) index
  then Ok (gather a index) else Raise IndexError.
Proof.
  induction index as [|i index IH]; simpl; [reflexivity|].
  destruct (Nat.ltb i (length a)) eqn:Hi.
  - apply Nat.ltb_lt in Hi.
    destruct (nth_error a i) as [v|] eqn:Hv.
    + rewrite IH. simpl.
      destruct (forallb _ index); simpl; [|reflexivity].
      now rewrite (nth_error_nth a i fzero Hv).
    + apply nth_error_None in Hv. lia.
  - apply Nat.ltb_ge in Hi. apply nth_error_None in Hi.
    now rewrite Hi.
Qed.

Lemma gather_length (a : list F) (index : list nat) :
  length (gather a index) = length index.
Proof. apply length_map. Qed.

Lemma gather_seq (a : list F) : gather a (seq 0 (length a)) = a.
Proof.
  unfold gather. apply nth_ext with (d := fzero) (d' := fzero).
  - now rewrite length_map, length_seq.
  - intros i Hi. rewrite length_map, length_seq in Hi.
    rewrite (nth_indep _ fzero (nth 0 a fzero)) by
      (now rewrite length_map, length_seq).
    rewrite (map_nth (fun i => nth i a fzero)), seq_nth by assumption.
    reflexivity.
Qed.

Lemma gather_firstn (a : list F) (n : nat) :
  (n <= length a)%nat -> gather a (seq 0 n) = firstn n a.
Proof.
  intros Hn. rewrite <- (gather_seq (firstn n a)).
  rewrite length_firstn, Nat.min_l by assumption.
  unfold gather. apply map_ext_in. intros i Hi. apply in_seq in Hi.
  rewrite <- (firstn_skipn n a) at 1.
  rewrite app_nth1; [reflexivity|].
  rewrite length_firstn; lia.
Qed.

Lemma gather_perm (a : list F) (index : list nat) (n : nat) :
  Permutation index (seq 0 n) -> (n <= length a)%nat ->
  Permutation (gather a index) (firstn n a).
Proof.
  intros P Hn. rewrite <- gather_firstn by assumption.
  now apply Permutation_map.
Qed.

Lemma gather_perm_all (a : list F) (index : list nat) :
  Permutation index (seq 0 (length a)) -> Permutation (gather a index) a.
Proof.
  intros P. rewrite <- (firstn_all a) at 2. now apply gather_perm.
Qed.

Lemma perm_seq_bound (index : list nat) (n m : nat) :
  Permutation index (seq 0 n) -> (n <= m)%nat ->
  forallb (fun i => Nat.ltb i m) index = true.
Proof.
  intros P Hn. apply forallb_forall. intros i Hi.
  apply (Permutation_in _ P), in_seq in Hi. apply Nat.ltb_lt. lia.
Qed.

Lemma perm_seq_overflow (index : list nat) (n m : nat) :
  Permutation index (seq 0 n) -> (m < n)%nat ->
  forallb (fun i => Nat.ltb i m) index = false.
Proof.
  intros P Hn. destruct (forallb _ index) eqn:E; [|reflexivity].
  rewrite forallb_forall in E.
  assert (Hin : In m index).
  { apply (Permutation_in _ (Permutation_sym P)), in_seq. lia. }
  apply E, Nat.ltb_lt in Hin. lia.
Qed.

(** *** argsort *)

Lemma insert_key_perm (p : F * nat) (l : list (F * nat)) :
  Permutation (insert_key p l) (p :: l).
Proof.
  induction l as [|q l IH]; simpl; [reflexivity|].
  destruct (fst p <=? fst q); [reflexivity|].
  rewrite IH. apply perm_swap.
Qed.

Lemma sort_keys_perm (l : list (F * nat)) : Permutation (sort_keys l) l.
Proof.
  induction l as [|p l IH]; simpl; [reflexivity|].
  rewrite insert_key_perm. now constructor.
Qed.

Lemma enumerate_snd (a : list F) : map snd (enumerate a) = seq 0 (length a).
Proof.
  unfold enumerate. generalize 0%nat.
  induction a as [|u a IH]; intros k; simpl; [reflexivity|].
  now rewrite IH.
Qed.

Lemma enumerate_fst (a : list F) : map fst (enumerate a) = a.
Proof.
  unfold enumerate. generalize 0%nat.
  induction a as [|u a IH]; intros k; simpl; [reflexivity|].
  now rewrite IH.
Qed.

Lemma argsort_perm (a : list F) :
  Permutation (argsort a) (seq 0 (length a)).
Proof.
  unfold argsort. rewrite <- enumerate_snd.
  apply Permutation_map, sort_keys_perm.
Qed.

Lemma enumerate_lookup (a : list F) (v : F) (i : nat) :
  In (v, i) (enumerate a) -> nth i a fzero = v.
Proof.
  unfold enumerate.
  assert (G : forall k, In (v, i) (combine a (seq k (length a))) ->
                        (k <= i)%nat /\ nth (i - k) a fzero = v).
  { induction a as [|u a IH]; intros k H; simpl in H; [contradiction|].
    destruct H as [H|H].
    - inversion H; subst. rewrite Nat.sub_diag. split; [lia|reflexivity].
    - apply IH in H. destruct H as [Hk Hn]. split; [lia|].
      replace (i - k)%nat with (S (i - S k)) by lia. exact Hn. }
  intros H. apply G in H. rewrite Nat.sub_0_r in H. tauto.
Qed.

Lemma argsort_gather (a : list F) :
  gather a (argsort a) = map fst (sort_keys (enumerate a)).
Proof.
  unfold gather, argsort. rewrite map_map. apply map_ext_in.
  intros [v i] Hin. simpl. apply enumerate_lookup.
  exact (Permutation_in _ (sort_keys_perm _) Hin).
Qed.

Lemma take_argsort (a : list F) :
  take a (argsort a) = Ok (gather a (argsort a)).
Proof.
  rewrite take_spec.
  now rewrite (perm_seq_bound (argsort_perm a) (Nat.le_refl _)).
Qed.

End ArrayFacts.

(** ** radius *)

Section RadiusFacts.
Context {F : Type} {N : Num F}.
Local Open Scope num_scope.

Lemma distances_length (x y : list F) (xa ya : F) :
  length x = length y -> length (distances x y xa ya) = length x.
Proof. apply zip_with_length. Qed.

Lemma distances_nth (x y : list F) (xa ya : F) (i : nat) :
  length x = length y -> (i < length x)%nat ->
  nth i (distances x y xa ya) fzero
  = distance xa ya (nth i x fzero) (nth i y fzero).
Proof. apply zip_with_nth. Qed.

(** With [x] and [y] of one length nothing is broadcast: the distances are
    computed point by point and only the indexing of [z] can fail. *)
Lemma radius_same_xy (x y z : list F) (xa ya : F) :
  length x = length y ->
  radius x y z xa ya =
  (let r := distances x y xa ya in
   z_sorted <- take z (argsort r) ;; Ok (gather r (argsort r), z_sorted)).
Proof.
  intros E. unfold radius.
  rewrite broadcast2_same_length by (now rewrite !length_map).
  simpl. rewrite zip_with_map, map_zip_with.
  change (zip_with _ x y) with (distances x y xa ya).
  now rewrite take_argsort.
Qed.

Lemma radius_returns (x y z : list F) (xa ya : F) :
  length x = length y -> (length x <= length z)%nat ->
  radius x y z xa ya =
  Ok (gather (distances x y xa ya) (argsort (distances x y xa ya)),
      gather z (argsort (distances x y xa ya))).
Proof.
  intros E Hz. rewrite radius_same_xy by assumption. simpl.
  rewrite take_spec, (perm_seq_bound (argsort_perm _)); [reflexivity|].
  now rewrite distances_length.
Qed.

(** C3, amended: the outcome of [radius] is decided by the three lengths alone.
    It raises [ValueError] exactly when the lengths of [x] and [y] differ
    and neither is 1, raises [IndexError] exactly when [z] is shorter than
    the distance sequence, and returns two sequences of the broadcast
    length in every other case, also when the three lengths differ. *)
Theorem radius_outcome (x y z : list F) (xa ya : F) :
  match radius x y z xa ya with
  | Ok (rs, zs) =>
      exists n, broadcast_len (length x) (length y) = Some n /\
                (n <= length z)%nat /\ length rs = n /\ length zs = n
  | Raise ValueError => broadcast_len (length x) (length y) = None
  | Raise IndexError =>
      exists n, broadcast_len (length x) (length y) = Some n /\
                (length z < n)%nat
  | Raise TypeError => False
  end.
Proof.
  unfold radius.
  pose proof (broadcast2_shape fadd (map (fun u => fsqr (u - xa)) x)
                (map (fun v => fsqr (v - ya)) y)) as B.
  rewrite !length_map in B.
  destruct (broadcast_len (length x) (length y)) as [n|].
  - destruct B as (s & -> & Hs). simpl.
    rewrite take_argsort. simpl.
    pose proof (argsort_perm (map fsqrt s)) as P.
    rewrite length_map, Hs in P.
    rewrite take_spec. destruct (Nat.le_gt_cases n (length z)) as [Hz|Hz].
    + rewrite (perm_seq_bound P Hz). simpl.
      exists n. rewrite !gather_length.
      rewrite (Permutation_length P), length_seq. auto.
    + rewrite (perm_seq_overflow P Hz). simpl. exists n. auto.
  - now rewrite B.
Qed.

(** C8: with [x], [y], [z] of one length N, [radius] returns two sequences
    of length N, and the elevations it returns are a permutation of [z]. *)
Theorem radius_keeps_all_points (x y z : list F) (xa ya : F) :
  length x = length y -> length y = length z ->
  exists rs zs, radius x y z xa ya = Ok (rs, zs) /\
                length rs = length x /\ length zs = length x /\
                Permutation zs z.
Proof.
  intros Exy Eyz.
  rewrite radius_returns by (try assumption; lia).
  pose proof (argsort_perm (distances x y xa ya)) as P.
  rewrite distances_length in P by assumption.
  do 2 eexists. split; [reflexivity|].
  rewrite !gather_length, (Permutation_length P), length_seq.
  repeat split.
  rewrite <- (firstn_all z) at 2.
  rewrite <- Eyz, <- Exy.
  apply gather_perm; [assumption | lia].
Qed.

(** C10: with [x] and [y] of length N and a longer [z], [radius] returns
    without an error two sequences of length N; the elevations are a
    permutation of the first N entries of [z], the others are ignored. *)
Theorem radius_ignores_extra_elevations (x y z : list F) (xa ya : F) :
  length x = length y -> (length x < length z)%nat ->
  exists rs zs, radius x y z xa ya = Ok (rs, zs) /\
                length rs = length x /\ length zs = length x /\
                Permutation zs (firstn (length x) z).
Proof.
  intros Exy Hz.
  rewrite radius_returns by (try assumption; lia).
  pose proof (argsort_perm (distances x y xa ya)) as P.
  rewrite distances_length in P by assumption.
  do 2 eexists. split; [reflexivity|].
  rewrite !gather_length, (Permutation_length P), length_seq.
  repeat split.
  apply gather_perm; [assumption | lia].
Qed.

End RadiusFacts.

(** ** Sorted output *)

Lemma sorted_perm_unique (A : Type) (le : A -> A -> Prop) (l1 l2 : list A) :
  StronglySorted le l1 -> StronglySorted le l2 -> Permutation l1 l2 ->
  (forall a b, In a l1 -> In b l1 -> le a b -> le b a -> a = b) ->
  l1 = l2.
Proof.
  revert l2. induction l1 as [|a t1 IH]; intros l2 S1 S2 P Anti.
  - apply Permutation_nil in P. now subst.
  - destruct l2 as [|b t2].
    + apply Permutation_sym, Permutation_nil in P. discriminate.
    + inversion S1 as [|? ? S1' F1]; inversion S2 as [|? ? S2' F2]; subst.
      assert (E : a = b).
      { assert (Ha : In a (b :: t2)) by (apply (Permutation_in _ P); now left).
        assert (Hb : In b (a :: t1))
          by (apply (Permutation_in _ (Permutation_sym P)); now left).
        destruct Ha as [Ha|Ha]; [now subst|].
        destruct Hb as [Hb|Hb]; [assumption|].
        rewrite Forall_forall in F1, F2.
        apply Anti; [now left | now right | now apply F1 | now apply F2]. }
      subst b. f_equal. apply IH; try assumption.
      * now apply Permutation_cons_inv in P.
      * intros u v Hu Hv. apply Anti; now right.
Qed.

Lemma StronglySorted_map (A B : Type) (f : A -> B) (le : B -> B -> Prop)
  (l : list A) :
  StronglySorted (fun a b => le (f a) (f b)) l <-> StronglySorted le (map f l).
Proof.
  induction l as [|a l IH]; simpl; split; intros S; try constructor;
    inversion S; subst.
  - now apply IH.
  - now apply Forall_map.
  - now apply IH.
  - now apply Forall_map.
Qed.

(** *** Sorting data on which the comparison is an order *)

Section SortedOn.
Context {F : Type} {N : Num F}.
Local Open Scope num_scope.

Lemma comparable_incl (l l' : list F) :
  (forall a, In a l' -> In a l) -> comparable l -> comparable l'.
Proof.
  intros I [T Tr]. split.
  - intros a b Ha Hb. apply T; now apply I.
  - intros a b c Ha Hb Hc. apply Tr; now apply I.
Qed.

Lemma comparable_perm (l l' : list F) :
  Permutation l l' -> comparable l -> comparable l'.
Proof.
  intros P. apply comparable_incl. intros a Ha.
  exact (Permutation_in _ (Permutation_sym P) Ha).
Qed.

Lemma antisymmetric_on_perm (l l' : list F) :
  Permutation l l' -> antisymmetric_on l -> antisymmetric_on l'.
Proof.
  intros P A a b Ha Hb.
  apply A.
  - exact (Permutation_in _ (Permutation_sym P) Ha).
  - exact (Permutation_in _ (Permutation_sym P) Hb).
Qed.

Lemma comparableb_true (l : list F) : comparableb l = true -> comparable l.
Proof.
  unfold comparableb. intros H. apply andb_prop in H. destruct H as [T Tr].
  rewrite forallb_forall in T, Tr. split.
  - intros a b Ha Hb. specialize (T a Ha). rewrite forallb_forall in T.
    specialize (T b Hb). now apply orb_prop in T.
  - intros a b c Ha Hb Hc Hab Hbc.
    specialize (Tr a Ha). rewrite forallb_forall in Tr.
    specialize (Tr b Hb). rewrite forallb_forall in Tr.
    specialize (Tr c Hc). rewrite Hab, Hbc in Tr. exact Tr.
Qed.

Let key_le (p q : F * nat) : Prop := fle (fst p) (fst q) = true.

Lemma insert_key_sorted_on (p : F * nat) (l : list (F * nat)) :
  comparable (fst p :: map fst l) ->
  StronglySorted key_le l -> StronglySorted key_le (insert_key p l).
Proof.
  induction l as [|q l IH]; intros C S; simpl.
  - repeat constructor.
  - inversion S as [|? ? S' Fq]; subst.
    destruct C as [T Tr].
    destruct (fst p <=? fst q) eqn:E.
    + constructor; [assumption|]. constructor; [exact E|].
      rewrite Forall_forall in Fq |- *. intros r Hr. unfold key_le in *.
      apply Tr with (fst q).
      * simpl. auto.
      * simpl. auto.
      * simpl. right. right. now apply in_map.
      * exact E.
      * now apply Fq.
    + constructor.
      * apply IH; [|assumption].
        apply comparable_incl with (fst p :: map fst (q :: l));
          [|now split].
        simpl. intros a [Ha|Ha]; auto.
      * apply (Permutation_Forall (Permutation_sym (insert_key_perm p l))).
        constructor; [|assumption]. unfold key_le.
        destruct (T (fst p) (fst q)) as [H|H]; simpl; auto. congruence.
Qed.

Lemma sort_keys_sorted_on (l : list (F * nat)) :
  comparable (map fst l) -> StronglySorted key_le (sort_keys l).
Proof.
  induction l as [|p l IH]; intros C; simpl; [constructor|].
  apply insert_key_sorted_on.
  - apply comparable_perm with (map fst (p :: l)); [|assumption].
    simpl. constructor. apply Permutation_map. symmetry.
    apply sort_keys_perm.
  - apply IH. apply comparable_incl with (map fst (p :: l)); [|assumption].
    simpl. auto.
Qed.

Lemma argsort_ascending_on (a : list F) :
  comparable a -> ascending (gather a (argsort a)).
Proof.
  intros C. unfold ascending. rewrite argsort_gather.
  apply (StronglySorted_map fst (fun u v => fle u v = true)).
  apply sort_keys_sorted_on. now rewrite enumerate_fst.
Qed.

Lemma distances_euclid (x y : list F) (xa ya : F) :
  length x = length y -> distances x y xa ya = euclid_all x y xa ya.
Proof.
  intros E. rewrite <- (gather_seq (distances x y xa ya)).
  rewrite distances_length by assumption.
  apply map_ext_in. intros i Hi. apply in_seq in Hi.
  rewrite distances_nth by (try assumption; lia). reflexivity.
Qed.

(** C1: for [x], [y], [z] of one length N whose distances
    sqrt((x_i - xa)^2 + (y_i - ya)^2) can be put in order (no NaN among
    them), there is a permutation [index] of the positions 0..N-1 such
    that [radius] returns these distances read at [index], in ascending
    order, together with [z] read at the same [index]. *)
Theorem radius_sorts_by_distance (x y z : list F) (xa ya : F) :
  length x = length y -> length y = length z ->
  comparable (euclid_all x y xa ya) ->
  exists index,
    Permutation index (seq 0 (length x)) /\
    radius x y z xa ya
    = Ok (gather (euclid_all x y xa ya) index, gather z index) /\
    ascending (gather (euclid_all x y xa ya) index).
Proof.
  intros Exy Eyz C.
  rewrite <- (distances_euclid x y xa ya Exy) in *.
  exists (argsort (distances x y xa ya)). split.
  - rewrite <- (distances_length x y xa ya Exy). apply argsort_perm.
  - split; [apply radius_returns; [assumption|lia]|].
    now apply argsort_ascending_on.
Qed.

(** *** The same points in another order *)

Lemma gather_nth (a : list F) (p : list nat) (i : nat) :
  (i < length p)%nat ->
  nth i (gather a p) fzero = nth (nth i p 0%nat) a fzero.
Proof.
  intros Hi. unfold gather.
  rewrite (nth_indep _ fzero (nth 0 a fzero)) by (now rewrite length_map).
  apply (map_nth (fun i => nth i a fzero)).
Qed.

Lemma zip_with_gather (f : F -> F -> F) (a b : list F) (p : list nat) :
  zip_with f (gather a p) (gather b p)
  = map (fun i => f (nth i a fzero) (nth i b fzero)) p.
Proof. induction p as [|i p IH]; simpl; [reflexivity|]. now rewrite IH. Qed.

Lemma distances_gather (x y : list F) (p : list nat) (xa ya : F) :
  length x = length y -> Permutation p (seq 0 (length x)) ->
  distances (gather x p) (gather y p) xa ya
  = gather (distances x y xa ya) p.
Proof.
  intros E P. unfold distances at 1. rewrite zip_with_gather.
  apply map_ext_in. intros i Hi. apply (Permutation_in _ P), in_seq in Hi.
  rewrite distances_nth by (try assumption; lia). reflexivity.
Qed.

Lemma seq_read_back (p : list nat) :
  map (fun i => nth i p 0%nat) (seq 0 (length p)) = p.
Proof.
  apply nth_ext with (d := 0%nat) (d' := 0%nat).
  - now rewrite length_map, length_seq.
  - intros i Hi. rewrite length_map, length_seq in Hi.
    rewrite (nth_indep _ 0%nat (nth 0 p 0%nat))
      by (now rewrite length_map, length_seq).
    rewrite (map_nth (fun i => nth i p 0%nat)), seq_nth by assumption.
    reflexivity.
Qed.

(** C7, amended: for distances that can be put in order (no NaN, equal
    only when identical), applying one permutation [p] to [x], [y] and [z]
    leaves the sorted distances returned by [radius] unchanged; it leaves
    the returned elevations unchanged when control points at the same
    computed distance from the apex have equal elevation, in particular
    when the computed distances are pairwise distinct. *)
Theorem radius_order_equivariance (x y z : list F) (p : list nat)
  (xa ya : F) :
  length x = length y -> length y = length z ->
  Permutation p (seq 0 (length x)) ->
  comparable (euclid_all x y xa ya) ->
  antisymmetric_on (euclid_all x y xa ya) ->
  exists rs zs zs',
    radius x y z xa ya = Ok (rs, zs) /\
    radius (gather x p) (gather y p) (gather z p) xa ya = Ok (rs, zs') /\
    ((forall i j, (i < length x)%nat -> (j < length x)%nat ->
        euclid xa ya (nth i x fzero) (nth i y fzero)
        = euclid xa ya (nth j x fzero) (nth j y fzero) ->
        nth i z fzero = nth j z fzero) ->
     zs' = zs).
Proof.
  intros Exy Eyz P C A.
  rewrite <- (distances_euclid x y xa ya Exy) in C, A.
  set (n := length x) in *.
  set (r := distances x y xa ya) in *.
  assert (Lr : length r = n) by (now apply distances_length).
  assert (Lp : length p = n)
    by (now rewrite (Permutation_length P), length_seq).
  assert (Er' : distances (gather x p) (gather y p) xa ya = gather r p)
    by (now apply distances_gather).
  assert (Prp : Permutation (gather r p) r)
    by (apply gather_perm_all; now rewrite Lr).
  assert (C' : comparable (gather r p))
    by (apply comparable_perm with r; [now symmetry|assumption]).
  rewrite (@radius_returns _ _ x y z) by (try assumption; fold n; lia).
  rewrite (@radius_returns _ _ (gather x p))
    by (rewrite !gather_length; lia).
  rewrite Er'. fold r.
  set (idx := argsort r). set (idx' := argsort (gather r p)).
  assert (Pi : Permutation idx (seq 0 n))
    by (rewrite <- Lr; apply argsort_perm).
  assert (Pi' : Permutation idx' (seq 0 n)).
  { rewrite <- Lp, <- (gather_length r p). apply argsort_perm. }
  assert (Prs : Permutation (gather r idx) r)
    by (apply gather_perm_all, argsort_perm).
  assert (Ers : gather (gather r p) idx' = gather r idx).
  { apply sorted_perm_unique with (le := fun a b : F => fle a b = true).
    - now apply argsort_ascending_on.
    - now apply argsort_ascending_on.
    - transitivity (gather r p);
        [apply gather_perm_all, argsort_perm|].
      transitivity r; [assumption | now symmetry].
    - apply antisymmetric_on_perm with r; [|assumption].
      symmetry. transitivity (gather r p);
        [apply gather_perm_all, argsort_perm | assumption]. }
  exists (gather r idx), (gather z idx), (gather (gather z p) idx').
  split; [reflexivity|]. split; [now rewrite Ers|].
  intros Hfun.
  set (g := fun i => (nth i r fzero, nth i z fzero)).
  assert (Bp : forall i, (i < n)%nat -> (nth i p 0 < n)%nat).
  { intros i Hi. assert (H : In (nth i p 0%nat) p) by (apply nth_In; lia).
    apply (Permutation_in _ P), in_seq in H. lia. }
  assert (EO : map g (map (fun i => nth i p 0%nat) idx') = map g idx).
  { apply sorted_perm_unique
      with (le := fun a b : F * F => fle (fst a) (fst b) = true).
    - apply (StronglySorted_map fst (fun u v => fle u v = true)).
      rewrite !map_map. simpl.
      replace (map _ idx') with (gather (gather r p) idx').
      + now apply argsort_ascending_on.
      + apply map_ext_in. intros i Hi.
        apply (Permutation_in _ Pi'), in_seq in Hi.
        apply gather_nth. lia.
    - apply (StronglySorted_map fst (fun u v => fle u v = true)).
      rewrite map_map. simpl. now apply argsort_ascending_on.
    - apply Permutation_map. rewrite Pi, <- P.
      pose proof (Permutation_map (fun i => nth i p 0%nat) Pi') as Q.
      rewrite <- Lp, seq_read_back in Q. exact Q.
    - intros a b Ha Hb Hab Hba.
      rewrite map_map in Ha, Hb.
      apply in_map_iff in Ha, Hb.
      destruct Ha as (i & <- & Hi), Hb as (j & <- & Hj).
      apply (Permutation_in _ Pi'), in_seq in Hi, Hj.
      pose proof (Bp i ltac:(lia)) as Bi. pose proof (Bp j ltac:(lia)) as Bj.
      unfold g in *. simpl in Hab, Hba.
      assert (E : nth (nth i p 0%nat) r fzero = nth (nth j p 0%nat) r fzero).
      { apply A; try assumption; apply nth_In; lia. }
      f_equal; [exact E|]. apply Hfun; try assumption.
      unfold r in E. rewrite !distances_nth in E by (try assumption; lia).
      exact E. }
  apply (f_equal (map snd)) in EO. rewrite !map_map in EO. simpl in EO.
  etransitivity; [|exact EO].
  apply map_ext_in. intros i Hi.
  apply (Permutation_in _ Pi'), in_seq in Hi.
  apply gather_nth. lia.
Qed.

End SortedOn.

(** *** Number types whose comparison is an order throughout *)

Section SortedFacts.
Context {F : Type} {N : Num F} {T : TotalOrder N}.
Local Open Scope num_scope.

Lemma total_order_comparable (l : list F) : comparable l.
Proof.
  split.
  - intros a b _ _. apply fle_total.
  - intros a b c _ _ _. apply fle_trans.
Qed.

Lemma argsort_ascending (a : list F) : ascending (gather a (argsort a)).
Proof. apply argsort_ascending_on, total_order_comparable. Qed.

End SortedFacts.

Unset Implicit Arguments.

(** ** The two number types *)

Lemma R_fle_true (a b : R) : fle a b = true <-> (a <= b)%R.
Proof. simpl. destruct (Rle_dec a b); split; intros; try easy. Qed.

Lemma R_flt_true (a b : R) : flt a b = true <-> (a < b)%R.
Proof. simpl. destruct (Rlt_dec a b); split; intros; try easy. Qed.

Lemma R_feq_true (a b : R) : feq a b = true <-> a = b.
Proof. simpl. destruct (Req_dec_T a b); split; intros; try easy. Qed.

#[export] Instance R_TotalOrder : TotalOrder R_Num.
Proof.
  split.
  - intros a b. rewrite !R_fle_true. lra.
  - intros a b c. rewrite !R_fle_true. lra.
  - intros a b. rewrite !R_fle_true. lra.
Qed.

(** Splits the membership hypotheses of a statement about a short list
    of binary64 numbers into its cases. *)
Ltac members :=
  repeat match goal with
         | H : In _ _ |- _ => vm_compute in H
         | H : _ \/ _ |- _ => destruct H
         | H : False |- _ => destruct H
         end; subst.

(** ** Running the model on binary64 *)

Example radius_runs :
  radius [3; 0; 6]%float [4; 0; 8]%float [10; 30; 20]%float 0%float 0%float
  = Ok ([0; 5; 10]%float, [30; 10; 20]%float).
Proof. vm_compute. reflexivity. Qed.

Lemma radius_sorts_by_distance_witness :
  exists index,
    Permutation index (seq 0 3) /\
    radius [3; 0; 6]%float [4; 0; 8]%float [10; 30; 20]%float 0%float 0%float
    = Ok (gather (euclid_all [3; 0; 6]%float [4; 0; 8]%float 0%float 0%float)
            index,
          gather [10; 30; 20]%float index) /\
    ascending
      (gather (euclid_all [3; 0; 6]%float [4; 0; 8]%float 0%float 0%float)
         index).
Proof.
  apply (@radius_sorts_by_distance float float_Num
           [3; 0; 6]%float [4; 0; 8]%float [10; 30; 20]%float 0%float 0%float).
  - reflexivity.
  - reflexivity.
  - apply comparableb_true. vm_compute. reflexivity.
Defined.

Lemma radius_keeps_all_points_witness :
  exists rs zs,
    radius [3; 0; 6]%float [4; 0; 8]%float [10; 30; 20]%float 0%float 0%float
    = Ok (rs, zs) /\
    length rs = 3%nat /\ length zs = 3%nat /\
    Permutation zs [10; 30; 20]%float.
Proof.
  apply (radius_keeps_all_points [3; 0; 6]%float [4; 0; 8]%float
           [10; 30; 20]%float 0%float 0%float); reflexivity.
Defined.

Lemma radius_ignores_extra_elevations_witness :
  exists rs zs,
    radius [3; 0]%float [4; 0]%float [10; 30; 20]%float 0%float 0%float
    = Ok (rs, zs) /\
    length rs = 2%nat /\ length zs = 2%nat /\
    Permutation zs [10; 30]%float.
Proof.
  apply (radius_ignores_extra_elevations [3; 0]%float [4; 0]%float
           [10; 30; 20]%float 0%float 0%float); [reflexivity | simpl; lia].
Defined.

(** C3 fails on the code: two control points with three elevations are
    accepted, and so is a single [x] against two [y]. *)
Lemma radius_accepts_unequal_lengths :
  ~ (length [3; 0]%float = length [4; 0]%float /\
     length [4; 0]%float = length [10; 30; 20]%float) /\
  radius [3; 0]%float [4; 0]%float [10; 30; 20]%float 0%float 0%float
  = Ok ([0; 5]%float, [30; 10]%float).
Proof.
  split; [simpl; intros [_ H]; discriminate | vm_compute; reflexivity].
Qed.

Example radius_broadcasts_single_x :
  radius [3]%float [4; 0]%float [10; 30]%float 0%float 0%float
  = Ok ([3; 5]%float, [30; 10]%float).
Proof. vm_compute. reflexivity. Qed.

Example radius_short_z :
  radius [3; 0]%float [4; 0]%float [10]%float 0%float 0%float
  = Raise IndexError.
Proof. vm_compute. reflexivity. Qed.

Example radius_shape_error :
  radius [3; 0; 1]%float [4; 0]%float [10; 30; 20]%float 0%float 0%float
  = Raise ValueError.
Proof. vm_compute. reflexivity. Qed.

(** C7 fails on the code: two control points at the same distance from the
    apex with different elevations; swapping the two points swaps the
    returned elevations. *)
Lemma radius_ties_follow_input_order :
  Permutation [1; 0]%nat (seq 0 (length [1; -1]%float)) /\
  radius [1; -1]%float [0; 0]%float [5; 7]%float 0%float 0%float
  = Ok ([1; 1]%float, [5; 7]%float) /\
  radius (gather [1; -1]%float [1; 0]%nat) (gather [0; 0]%float [1; 0]%nat)
         (gather [5; 7]%float [1; 0]%nat) 0%float 0%float
  = Ok ([1; 1]%float, [7; 5]%float) /\
  radius (gather [1; -1]%float [1; 0]%nat) (gather [0; 0]%float [1; 0]%nat)
         (gather [5; 7]%float [1; 0]%nat) 0%float 0%float
  <> radius [1; -1]%float [0; 0]%float [5; 7]%float 0%float 0%float.
Proof.
  split; [apply perm_swap|].
  split; [vm_compute; reflexivity|].
  split; [vm_compute; reflexivity|].
  intros H.
  apply (f_equal (fun res => match res with
                             | Ok (_, v :: _) => PrimFloat.eqb v 5
                             | _ => false
                             end)) in H.
  vm_compute in H. discriminate.
Qed.

Lemma radius_order_equivariance_witness :
  exists rs zs zs',
    radius [3; 0; 6]%float [4; 0; 8]%float [10; 30; 20]%float 0%float 0%float
    = Ok (rs, zs) /\
    radius (gather [3; 0; 6]%float [1; 0; 2]%nat)
           (gather [4; 0; 8]%float [1; 0; 2]%nat)
           (gather [10; 30; 20]%float [1; 0; 2]%nat) 0%float 0%float
    = Ok (rs, zs') /\
    ((forall i j, (i < 3)%nat -> (j < 3)%nat ->
        euclid 0%float 0%float (nth i [3; 0; 6]%float fzero)
                               (nth i [4; 0; 8]%float fzero)
        = euclid 0%float 0%float (nth j [3; 0; 6]%float fzero)
                                 (nth j [4; 0; 8]%float fzero) ->
        nth i [10; 30; 20]%float fzero = nth j [10; 30; 20]%float fzero) ->
     zs' = zs).
Proof.
  apply (@radius_order_equivariance float float_Num
           [3; 0; 6]%float [4; 0; 8]%float [10; 30; 20]%float
           [1; 0; 2]%nat 0%float 0%float).
  - reflexivity.
  - reflexivity.
  - simpl. apply perm_swap.
  - apply comparableb_true. vm_compute. reflexivity.
  - intros a b Ha Hb Hab Hba. members; try reflexivity;
      vm_compute in Hab, Hba; discriminate.
Defined.

(** ** errorPolynome *)

Section PolyfitFacts.
Context {F : Type} {N : Num F}.

Lemma vander_length (x : list F) (order : nat) :
  length (vander x order) = order.
Proof. unfold vander. now rewrite length_map, length_rev, length_seq. Qed.

Lemma lstsq_residuals_short (m : nat) (cols : list (list F)) (b : list F) :
  (length (residuals (lstsq m cols b)) <= 1)%nat.
Proof.
  unfold lstsq. cbn [residuals].
  destruct (_ && _); simpl; lia.
Qed.

Lemma lstsq_residuals_square (m : nat) (cols : list (list F)) (b : list F) :
  (m <= length cols)%nat -> residuals (lstsq m cols b) = [].
Proof.
  intros H. unfold lstsq. cbn [residuals].
  replace (Nat.ltb (length cols) m) with false
    by (symmetry; apply Nat.ltb_ge; exact H).
  now rewrite andb_false_r.
Qed.

(** C9: with N <= deg + 1 points [errorPolynome] raises or returns the
    empty residual sequence; it never returns a sum of squared residuals. *)
Theorem errorPolynome_too_few_points (r z : list F) (deg : Z) :
  (Z.of_nat (length r) <= deg + 1)%Z ->
  errorPolynome r z deg = Ok [] \/ exists e, errorPolynome r z deg = Raise e.
Proof.
  intros H. unfold errorPolynome, polyfit.
  destruct (deg <? 0)%Z; [right; eexists; reflexivity|].
  destruct (Nat.eqb (length r) 0); [right; eexists; reflexivity|].
  destruct (negb (Nat.eqb (length r) (length z)));
    [right; eexists; reflexivity|].
  cbv zeta. destruct (existsb _ _); [right; eexists; reflexivity|].
  left. cbn [bind]. f_equal. apply lstsq_residuals_square.
  rewrite length_map, vander_length. lia.
Qed.


(** With at most two points the linear fit has nothing to report. *)
Lemma errorPolynome_line_short (r z : list F) :
  (length r <= 2)%nat ->
  match errorPolynome r z 1 with
  | Ok res => res = []
  | Raise _ => True
  end.
Proof.
  intros H. unfold errorPolynome, polyfit.
  change (1 <? 0)%Z with false. cbv iota.
  destruct (Nat.eqb (length r) 0); [exact I|].
  destruct (negb _); [exact I|].
  cbv zeta. destruct (existsb _ _); [exact I|].
  cbn [bind]. apply lstsq_residuals_square.
  now rewrite length_map, vander_length.
Qed.

Lemma radius_profile_lengths (x y z : list F) (a b : F) :
  length x = length y ->
  length (gather (distances x y a b) (argsort (distances x y a b)))
  = length x /\
  length (gather z (argsort (distances x y a b))) = length x.
Proof.
  intros Exy.
  rewrite !gather_length, (Permutation_length (argsort_perm _)), length_seq.
  split; now apply distances_length.
Qed.

Lemma errorPolynome_line_cases (r z : list F) :
  length r = length z ->
  match errorPolynome r z 1 with
  | Ok res => (0 < length r)%nat /\ (length res <= 1)%nat
  | Raise TypeError => length r = 0%nat
  | Raise ValueError => (0 < length r)%nat
  | Raise IndexError => False
  end.
Proof.
  intros E. unfold errorPolynome, polyfit.
  change (1 <? 0)%Z with false. cbv iota.
  rewrite <- E, Nat.eqb_refl. cbn [negb].
  destruct (Nat.eqb (length r) 0) eqn:E0.
  { now apply Nat.eqb_eq in E0. }
  apply Nat.eqb_neq in E0. cbv zeta.
  destruct (existsb _ _); cbn [bind]; [lia|].
  split; [lia | apply lstsq_residuals_short].
Qed.

(** X10: for control points of one length N the linear-fit objective
    raises [TypeError] exactly when N = 0; with points it can fail only
    with numpy's [LinAlgError] (a [ValueError]); when it returns, it
    returns an array of at most one number, the empty array if N is 1 or
    2, and never a scalar. *)
Theorem to_be_minimizedP1_outcome (x y z : list F) (apex_coord : F * F) :
  length x = length y -> length y = length z ->
  match to_be_minimizedP1 x y z apex_coord with
  | Ok (Array res) => (0 < length x)%nat /\ (length res <= 1)%nat /\
                      ((length x <= 2)%nat -> res = [])
  | Ok (Scalar _) => False
  | Raise TypeError => length x = 0%nat
  | Raise ValueError => (0 < length x)%nat
  | Raise IndexError => False
  end.
Proof.
  intros Exy Eyz. unfold to_be_minimizedP1.
  rewrite radius_returns by (try assumption; lia). cbn [bind].
  destruct (radius_profile_lengths x y z (fst apex_coord) (snd apex_coord) Exy)
    as [Lr Lz].
  set (rs := gather (distances x y (fst apex_coord) (snd apex_coord)) _) in *.
  set (zs := gather z _) in *.
  pose proof (errorPolynome_line_short rs zs) as Hs.
  pose proof (errorPolynome_line_cases rs zs) as Ho.
  rewrite Lr, Lz in Ho. specialize (Ho eq_refl).
  destruct (errorPolynome rs zs 1) as [res|[| |]]; cbn [bind];
    try exact Ho.
  destruct Ho as [Hn Hl]. repeat split; try assumption.
  intros H2. apply Hs. now rewrite Lr.
Qed.

End PolyfitFacts.

Lemma errorPolynome_too_few_points_witness :
  errorPolynome [1; 2]%float [3; 4]%float 1 = Ok []
  \/ exists e, errorPolynome [1; 2]%float [3; 4]%float 1 = Raise e.
Proof.
  apply (errorPolynome_too_few_points [1; 2]%float [3; 4]%float 1).
  simpl. lia.
Defined.

Example errorPolynome_two_points :
  errorPolynome [1; 2]%float [3; 4]%float 1 = Ok [].
Proof. vm_compute. reflexivity. Qed.

Example errorPolynome_no_points :
  errorPolynome (@nil float) [] 1 = Raise TypeError.
Proof. vm_compute. reflexivity. Qed.

Example errorPolynome_point_on_apex :
  errorPolynome [0]%float [5]%float 1 = Raise ValueError.
Proof. vm_compute. reflexivity. Qed.

Lemma to_be_minimizedP1_outcome_witness :
  match to_be_minimizedP1 [3; 0]%float [4; 0]%float [10; 30]%float
          (1%float, 1%float) with
  | Ok (Array res) => (0 < 2)%nat /\ (length res <= 1)%nat /\
                      ((2 <= 2)%nat -> res = [])
  | Ok (Scalar _) => False
  | Raise TypeError => 2%nat = 0%nat
  | Raise ValueError => (0 < 2)%nat
  | Raise IndexError => False
  end.
Proof.
  apply (@to_be_minimizedP1_outcome float float_Num
           [3; 0]%float [4; 0]%float [10; 30]%float (1%float, 1%float));
    reflexivity.
Defined.

(** ** Statements that do not depend on rounding *)

Section RealVectors.
Local Open Scope R_scope.

Lemma vsum_cons (u : R) (l : list R) : vsum (u :: l) = u + vsum l.
Proof. reflexivity. Qed.

Lemma dot_cons (u v : R) (a b : list R) :
  dot (u :: a) (v :: b) = u * v + dot a b.
Proof. reflexivity. Qed.

Lemma dot_self_nonneg (a : list R) : 0 <= dot a a.
Proof.
  induction a as [|u a IH]; [unfold dot, vsum; simpl; lra|].
  rewrite dot_cons. nra.
Qed.

Lemma dot_self_pos (a : list R) :
  (exists u, In u a /\ u <> 0) -> 0 < dot a a.
Proof.
  intros (u & Hin & Hu). induction a as [|v a IH]; [contradiction|].
  rewrite dot_cons. pose proof (dot_self_nonneg a).
  destruct Hin as [->|Hin].
  - nra.
  - specialize (IH Hin). nra.
Qed.

Lemma is_zero_vec_dot (a : list R) : is_zero_vec a = true -> dot a a = 0.
Proof.
  induction a as [|u a IH]; intros H; [reflexivity|].
  unfold is_zero_vec in H. simpl forallb in H.
  apply andb_prop in H. destruct H as [Hu Ha].
  apply R_feq_true in Hu. rewrite dot_cons, (IH Ha), Hu.
  change (@fzero R R_Num) with 0. ring.
Qed.

Lemma dot_pos_not_zero_vec (a : list R) : 0 < dot a a -> is_zero_vec a = false.
Proof.
  intros H. destruct (is_zero_vec a) eqn:E; [|reflexivity].
  apply is_zero_vec_dot in E. lra.
Qed.

Lemma vander_line (r : list R) : vander r 2 = [r; ones r].
Proof.
  unfold vander. simpl. f_equal.
  rewrite <- (map_id r) at 2. apply map_ext. intros a. apply Rmult_1_r.
Qed.

Lemma R_no_nan (m : list (list R)) : existsb (existsb is_nan) m = false.
Proof.
  induction m as [|c m IH]; [reflexivity|]. simpl. rewrite IH, orb_false_r.
  induction c as [|v c IHc]; [reflexivity|]. simpl. rewrite IHc, orb_false_r.
  unfold is_nan. apply negb_false_iff. now apply R_feq_true.
Qed.

(** X7: a residual that [errorPolynome] returns is never negative, for any
    degree. *)
Theorem errorPolynome_nonneg (r z : list R) (deg : Z) (res : list R) :
  errorPolynome r z deg = Ok res -> Forall (fun v => 0 <= v) res.
Proof.
  unfold errorPolynome, polyfit. intros H.
  destruct (deg <? 0)%Z; [discriminate|].
  destruct (Nat.eqb (length r) 0); [discriminate|].
  destruct (negb _); [discriminate|].
  cbv zeta in H. destruct (existsb _ _); [discriminate|].
  cbn [bind] in H. injection H as <-.
  unfold lstsq. cbn [residuals].
  destruct (_ && _); constructor; [apply dot_self_nonneg | constructor].
Qed.

Lemma dot_repeat (a b : R) (n : nat) :
  dot (repeat a n) (repeat b n) = INR n * (a * b).
Proof.
  induction n as [|n IH]; [unfold dot, vsum; simpl; ring|].
  simpl repeat. rewrite dot_cons, IH, S_INR. ring.
Qed.

Lemma scale_column_repeat (a : R) (n : nat) :
  scale_column (repeat a n)
  = repeat (a / R_sqrt.sqrt (INR n * (a * a))) n.
Proof.
  unfold scale_column. cbv zeta. rewrite dot_repeat, map_repeat. reflexivity.
Qed.

Lemma axpy_repeat (mu a b : R) (n : nat) :
  axpy mu (repeat a n) (repeat b n) = repeat (b - mu * a) n.
Proof.
  unfold axpy. induction n as [|n IH]; [reflexivity|].
  simpl. f_equal. exact IH.
Qed.

Lemma ones_repeat (c : R) (n : nat) : ones (repeat c n) = repeat 1 n.
Proof. unfold ones. now rewrite map_repeat. Qed.

(** X9: when all the distances are equal (control points on a circle around
    the candidate apex) the fit is rank deficient and [errorPolynome]
    returns the empty sequence, however many points there are. *)
Theorem errorPolynome_equidistant (c : R) (n : nat) (z : list R) :
  c <> 0 -> (0 < n)%nat -> length z = n ->
  errorPolynome (repeat c n) z 1 = Ok [].
Proof.
  intros Hc Hn Ez.
  assert (Pn : 0 < INR n) by now apply lt_0_INR.
  unfold errorPolynome, polyfit.
  change (1 <? 0)%Z with false. cbv iota.
  rewrite repeat_length, Ez, Nat.eqb_refl.
  destruct (Nat.eqb n 0) eqn:E0; [apply Nat.eqb_eq in E0; lia|].
  cbn [negb]. cbv zeta. rewrite R_no_nan. cbn [bind].
  change (Z.to_nat (1 + 1)) with 2%nat.
  rewrite vander_line, ones_repeat. cbn [map].
  rewrite !scale_column_repeat.
  set (a := c / R_sqrt.sqrt (INR n * (c * c))).
  set (b := 1 / R_sqrt.sqrt (INR n * (1 * 1))).
  assert (Ha : a <> 0).
  { unfold a. assert (0 < R_sqrt.sqrt (INR n * (c * c))).
    { apply sqrt_lt_R0. apply Rmult_lt_0_compat; [assumption|nra]. }
    unfold Rdiv. apply Rmult_integral_contrapositive_currified;
      [assumption|]. apply Rinv_neq_0_compat. lra. }
  assert (Paa : 0 < dot (repeat a n) (repeat a n)).
  { rewrite dot_repeat. apply Rmult_lt_0_compat; [assumption|nra]. }
  unfold lstsq. cbn [orthogonalise project_out fold_left].
  rewrite (dot_pos_not_zero_vec _ Paa). cbn [app fold_left].
  change (project_out [repeat a n] (repeat b n))
    with (axpy (dot (repeat b n) (repeat a n)
                / dot (repeat a n) (repeat a n))
               (repeat a n) (repeat b n)).
  rewrite axpy_repeat, !dot_repeat.
  replace (is_zero_vec _) with true; [reflexivity|].
  symmetry. unfold is_zero_vec. apply forallb_forall.
  intros w Hw. apply repeat_spec in Hw. subst w. apply R_feq_true.
  change (@fzero R R_Num) with 0. field. split; lra.
Qed.

(** X4: every distance that [radius] returns is non-negative. *)
Theorem radius_distances_nonneg (x y z : list R) (xa ya : R)
  (rs zs : list R) :
  radius x y z xa ya = Ok (rs, zs) -> Forall (fun v => 0 <= v) rs.
Proof.
  unfold radius. intros H.
  destruct (broadcast2 _ _ _) as [s|e]; [|discriminate].
  cbn [bind] in H. rewrite take_argsort in H. cbn [bind] in H.
  destruct (take z _) as [zs'|e]; [|discriminate].
  cbn [bind] in H. injection H as <- _.
  apply Forall_forall. intros v Hv.
  apply (Permutation_in _ (@gather_perm_all _ _ _ _ (argsort_perm _))) in Hv.
  apply in_map_iff in Hv. destruct Hv as (w & <- & _).
  apply sqrt_pos.
Qed.

End RealVectors.

Lemma radius_distances_nonneg_witness :
  Forall (fun v => 0 <= v)%R
    (gather (distances [3; 0]%R [4; 0]%R 0%R 0%R)
            (argsort (distances [3; 0]%R [4; 0]%R 0%R 0%R))).
Proof.
  apply (@radius_distances_nonneg [3; 0]%R [4; 0]%R [10; 30]%R 0%R 0%R
           _ (gather [10; 30]%R (argsort (distances [3; 0]%R [4; 0]%R 0%R 0%R)))).
  apply radius_returns; [reflexivity | simpl; lia].
Defined.

(** three points on no line: the fit has full rank and reports a residual *)
Lemma errorPolynome_three_points :
  exists s, errorPolynome [0; 1; 2]%R [1; 3; 6]%R 1 = Ok [s].
Proof.
  unfold errorPolynome, polyfit.
  change (1 <? 0)%Z with false. cbv iota.
  change (Nat.eqb (length [0; 1; 2]%R) 0) with false.
  change (negb (Nat.eqb (length [0; 1; 2]%R) (length [1; 3; 6]%R)))
    with false.
  cbv iota zeta. rewrite R_no_nan. cbn [bind].
  change (Z.to_nat (1 + 1)) with 2%nat. rewrite vander_line.
  unfold lstsq. cbn [map orthogonalise project_out fold_left].
  set (q1 := scale_column [0; 1; 2]%R).
  set (o := scale_column (ones [0; 1; 2]%R)).
  assert (S1 : (0 < R_sqrt.sqrt (dot [0; 1; 2] [0; 1; 2]))%R).
  { apply sqrt_lt_R0. unfold dot, vsum. simpl. lra. }
  assert (S2 : (0 < R_sqrt.sqrt (dot (ones [0; 1; 2]) (ones [0; 1; 2])))%R).
  { apply sqrt_lt_R0. unfold dot, vsum, ones. simpl. lra. }
  assert (Z1 : is_zero_vec q1 = false).
  { apply dot_pos_not_zero_vec, dot_self_pos.
    exists (1 / R_sqrt.sqrt (dot [0; 1; 2] [0; 1; 2]))%R. split.
    - unfold q1, scale_column. simpl. auto.
    - unfold Rdiv. rewrite Rmult_1_l. apply Rinv_neq_0_compat. lra. }
  rewrite Z1. cbn [app fold_left].
  change (project_out [q1] o) with (axpy (dot o q1 / dot q1 q1)%num q1 o).
  set (q2 := axpy (dot o q1 / dot q1 q1)%num q1 o).
  assert (Z2 : is_zero_vec q2 = false).
  { apply dot_pos_not_zero_vec, dot_self_pos.
    exists (1 / R_sqrt.sqrt (dot (ones [0; 1; 2]) (ones [0; 1; 2]))
            - (dot o q1 / dot q1 q1)
              * (0 / R_sqrt.sqrt (dot [0; 1; 2] [0; 1; 2])))%R. split.
    - unfold q2, q1, o, axpy, scale_column, ones. simpl. auto.
    - unfold Rdiv at 3. rewrite Rmult_0_l, Rmult_0_r, Rminus_0_r.
      unfold Rdiv. rewrite Rmult_1_l. apply Rinv_neq_0_compat. lra. }
  rewrite Z2. cbn [length Nat.eqb Nat.ltb Nat.leb andb].
  eexists. reflexivity.
Qed.

Lemma errorPolynome_nonneg_witness :
  exists s,
    errorPolynome [0; 1; 2]%R [1; 3; 6]%R 1 = Ok [s] /\
    Forall (fun v => 0 <= v)%R [s].
Proof.
  destruct errorPolynome_three_points as [s H].
  exists s. split; [exact H|].
  exact (errorPolynome_nonneg _ _ _ _ H).
Defined.

Lemma errorPolynome_equidistant_witness :
  errorPolynome (repeat 5%R 3) [1; 2; 3]%R 1 = Ok [].
Proof.
  apply (errorPolynome_equidistant 5%R 3 [1; 2; 3]%R).
  - lra.
  - lia.
  - reflexivity.
Defined.

(** ** errorSpearman *)

Section SpearmanFacts.
Context {F : Type} {N : Num F}.
Local Open Scope num_scope.

Lemma count_cons (p : F -> bool) (u : F) (a : list F) :
  count p (u :: a) = ((if p u then 1 else 0) + count p a)%nat.
Proof. unfold count. simpl. now destruct (p u). Qed.

Lemma count_perm (p : F -> bool) (a b : list F) :
  Permutation a b -> count p a = count p b.
Proof.
  induction 1 as [|u a b _ IH|u v a|a b c _ IH1 _ IH2];
    rewrite ?count_cons; lia.
Qed.

Lemma count_none (p : F -> bool) (a : list F) :
  (forall u, In u a -> p u = false) -> count p a = 0%nat.
Proof.
  induction a as [|u a IH]; intros H; [reflexivity|].
  rewrite count_cons, (H u) by now left.
  apply IH. intros w Hw. apply H. now right.
Qed.

Lemma coherent_incl (l l' : list F) :
  (forall a, In a l' -> In a l) -> coherent l -> coherent l'.
Proof.
  intros I [Hlt Heq]. split; intros a b Ha Hb;
    [apply Hlt | apply Heq]; now apply I.
Qed.

Section OnOrderedData.
Variable l : list F.
Hypothesis Hc : comparable l.
Hypothesis Hk : coherent l.

Lemma fle_refl_on (v : F) : In v l -> fle v v = true.
Proof. intros Hv. destruct Hc as [T _]. now destruct (T v v Hv Hv). Qed.

Lemma feq_refl_on (v : F) : In v l -> feq v v = true.
Proof.
  intros Hv. destruct Hk as [_ Heq].
  now rewrite (Heq v v Hv Hv), (fle_refl_on v Hv).
Qed.

Lemma feq_trans_on (u v w : F) :
  In u l -> In v l -> In w l ->
  feq u v = true -> feq v w = true -> feq u w = true.
Proof.
  intros Hu Hv Hw. destruct Hk as [_ Heq], Hc as [_ Tr].
  rewrite (Heq u v), (Heq v w), (Heq u w) by assumption.
  rewrite !andb_true_iff. intros [A B] [C D]. split.
  - now apply (Tr u v w).
  - now apply (Tr w v u).
Qed.

Lemma feq_sym_on (u v : F) : In u l -> In v l -> feq u v = feq v u.
Proof.
  intros Hu Hv. destruct Hk as [_ Heq].
  rewrite (Heq u v), (Heq v u) by assumption. apply andb_comm.
Qed.

Lemma no_nan_on : existsb is_nan l = false.
Proof.
  destruct (existsb is_nan l) eqn:E; [|reflexivity].
  apply existsb_exists in E. destruct E as (v & Hv & Hn).
  unfold is_nan in Hn. now rewrite (feq_refl_on v Hv) in Hn.
Qed.

Lemma count_le_split (v : F) (a : list F) :
  In v l -> (forall u, In u a -> In u l) ->
  count (fun u => fle u v) a
  = (count (fun u => flt u v) a + count (fun u => feq u v) a)%nat.
Proof.
  intros Hv. induction a as [|u a IH]; intros Ha; [reflexivity|].
  rewrite !count_cons, IH by (intros w Hw; apply Ha; now right).
  assert (Hu : In u l) by (apply Ha; now left).
  destruct Hk as [Hlt Heq], Hc as [T _].
  rewrite (Hlt u v Hu Hv), (Heq u v Hu Hv).
  destruct (T u v Hu Hv) as [E|E]; rewrite E;
    destruct (fle u v), (fle v u); simpl; try lia; discriminate.
Qed.

End OnOrderedData.

Lemma count_pos (p : F -> bool) (v : F) (a : list F) :
  In v a -> p v = true -> (1 <= count p a)%nat.
Proof.
  intros Hv E. induction a as [|u a IH]; [contradiction|].
  rewrite count_cons. destruct Hv as [->|Hv].
  - rewrite E. lia.
  - specialize (IH Hv). lia.
Qed.

Lemma count_feq_pos (l : list F) (v : F) :
  comparable l -> coherent l -> In v l ->
  (1 <= count (fun u => feq u v) l)%nat.
Proof.
  intros Hc Hk Hv. apply count_pos with v; [assumption|].
  now apply (feq_refl_on l Hc Hk).
Qed.

Lemma varies_not_constant (l : list F) :
  comparable l -> coherent l -> varies l -> is_constant l = false.
Proof.
  intros Hc Hk (u & v & Hu & Hv & Huv).
  destruct l as [|w a]; [contradiction|].
  unfold is_constant.
  destruct (forallb _ (w :: a)) eqn:E; [|reflexivity].
  rewrite forallb_forall in E.
  assert (Hw : In w (w :: a)) by now left.
  pose proof (E u Hu) as Eu. pose proof (E v Hv) as Ev.
  rewrite (feq_sym_on _ Hk w u Hw Hu) in Eu.
  rewrite (feq_trans_on _ Hc Hk u w v Hu Hw Hv Eu Ev) in Huv. discriminate.
Qed.

Lemma first_index_count (v : F) (arr : list F) :
  comparable arr -> coherent arr -> ascending arr -> In v arr ->
  first_index v arr = count (fun u => flt u v) arr.
Proof.
  induction arr as [|u t IH]; intros Hc Hk S Hv; [contradiction|].
  inversion S as [|? ? S' Fu]; subst. rewrite Forall_forall in Fu.
  assert (Hu : In u (u :: t)) by now left.
  assert (Ht : forall w, In w t -> In w (u :: t)) by (intros; now right).
  pose proof Hk as [Hlt Heq]. pose proof Hc as [_ Tr].
  simpl first_index. rewrite count_cons, (Hlt u v Hu Hv).
  destruct (feq u v) eqn:E.
  - rewrite (Heq u v Hu Hv) in E. apply andb_prop in E. destruct E as [E1 E2].
    rewrite E2. simpl. symmetry. apply count_none. intros w Hw.
    rewrite (Hlt w v (Ht w Hw) Hv). apply negb_false_iff.
    apply (Tr v u w); auto.
  - destruct Hv as [->|Hv'];
      [now rewrite (feq_refl_on _ Hc Hk v Hu) in E|].
    pose proof (Fu v Hv') as Luv.
    rewrite (Heq u v Hu (Ht v Hv')), Luv in E. simpl in E. rewrite E. simpl.
    f_equal. apply IH; try assumption.
    + now apply comparable_incl with (u :: t).
    + now apply coherent_incl with (u :: t).
Qed.

(** scipy's ranks are the ranks of the definition *)
Lemma rankdata_average_ranks (a : list F) :
  comparable a -> coherent a -> rankdata a = average_ranks a.
Proof.
  intros Hc Hk. unfold rankdata, average_ranks, average_rank.
  apply map_ext_in. intros v Hv. cbv zeta. do 2 f_equal.
  set (arr := gather a (argsort a)).
  assert (P : Permutation arr a) by apply gather_perm_all, argsort_perm.
  assert (I : forall u, In u arr -> In u a)
    by (intros u; apply (Permutation_in _ P)).
  rewrite (first_index_count v arr).
  - rewrite (count_perm _ _ _ P).
    rewrite (count_le_split a Hc Hk v a Hv (fun u H => H)).
    pose proof (count_feq_pos a v Hc Hk Hv). lia.
  - now apply comparable_incl with a.
  - now apply coherent_incl with a.
  - now apply argsort_ascending_on.
  - exact (Permutation_in _ (Permutation_sym P) Hv).
Qed.

Lemma clip_bounds (v : F) :
  unit_bounds_ordered ->
  flt (clip (fzero - fone) fone v) (fzero - fone) = false /\
  flt fone (clip (fzero - fone) fone v) = false.
Proof.
  intros (B1 & B2 & B3). unfold clip.
  destruct (v <? fzero - fone) eqn:E1; [now split|].
  destruct (fone <? v) eqn:E2; split; assumption.
Qed.


Lemma coherentb_true (l : list F) : coherentb l = true -> coherent l.
Proof.
  unfold coherentb. intros H. rewrite forallb_forall in H.
  split; intros a b Ha Hb; specialize (H a Ha);
    rewrite forallb_forall in H; specialize (H b Hb);
    apply andb_prop in H; destruct H as [H1 H2].
  - now apply Bool.eqb_prop.
  - now apply Bool.eqb_prop.
Qed.

(** X11: on control points of one length the rank objective never fails: it
    always hands the minimiser a number, the undefined value when there is
    at most one point. *)
Theorem to_be_minimizedSp_outcome (ttest_finish : nat -> F -> F)
  (x y z : list F) (apex_coord : F * F) :
  length x = length y -> length y = length z ->
  match to_be_minimizedSp ttest_finish x y z apex_coord with
  | Ok (Scalar v) => (length x <= 1)%nat -> v = fnan
  | Ok (Array _) => False
  | Raise _ => False
  end.
Proof.
  intros Exy Eyz. unfold to_be_minimizedSp.
  rewrite radius_returns by (try assumption; lia). cbn [bind].
  destruct (radius_profile_lengths x y z (fst apex_coord) (snd apex_coord) Exy)
    as [Lr Lz].
  unfold errorSpearman, spearmanr.
  rewrite Lr, Lz, Nat.eqb_refl. cbn [negb].
  destruct (Nat.leb (length x) 1) eqn:E1; cbn [bind].
  - reflexivity.
  - apply Nat.leb_gt in E1. destruct (_ || _); cbn [bind];
      [intros; lia|].
    destruct (_ || _); cbn [bind]; intros; lia.
Qed.

End SpearmanFacts.


Ltac decide_reals :=
  repeat match goal with
  | |- context [Rle_dec ?a ?b] => destruct (Rle_dec a b); try lra
  | |- context [Rlt_dec ?a ?b] => destruct (Rlt_dec a b); try lra
  | |- context [Req_dec_T ?a ?b] => destruct (Req_dec_T a b); try lra
  end.

Lemma average_ranks_pair_up : average_ranks [1; 2]%R = [1; 2]%R.
Proof.
  unfold average_ranks, average_rank, argsort, enumerate, gather, count, half.
  cbn. decide_reals. cbn. decide_reals. cbn.
  f_equal; [field | f_equal; field].
Qed.

Lemma average_ranks_pair_down : average_ranks [2; 1]%R = [2; 1]%R.
Proof.
  unfold average_ranks, average_rank, argsort, enumerate, gather, count, half.
  cbn. decide_reals. cbn. decide_reals. cbn.
  f_equal; [field | f_equal; field].
Qed.

Lemma spearman_rho_two_points : spearman_rho [1; 2]%R [2; 1]%R = (-1)%R.
Proof.
  unfold spearman_rho. rewrite average_ranks_pair_up, average_ranks_pair_down.
  unfold pearson, center, mean, dot, vsum. cbn.
  replace ((1 - (1 + (2 + 0)) / (0 + 1 + 1)) * (1 - (1 + (2 + 0)) / (0 + 1 + 1)) +
           ((2 - (1 + (2 + 0)) / (0 + 1 + 1)) * (2 - (1 + (2 + 0)) / (0 + 1 + 1)) + 0))%R
    with (/ 2)%R by field.
  replace ((2 - (2 + (1 + 0)) / (0 + 1 + 1)) * (2 - (2 + (1 + 0)) / (0 + 1 + 1)) +
           ((1 - (2 + (1 + 0)) / (0 + 1 + 1)) * (1 - (2 + (1 + 0)) / (0 + 1 + 1)) + 0))%R
    with (/ 2)%R by field.
  replace (/ 2 * / 2)%R with (Rsqr (/ 2)) by (unfold Rsqr; reflexivity).
  rewrite sqrt_Rsqr by lra. field.
Qed.


Example errorSpearman_runs :
  errorSpearman (fun _ _ => 0%float) [1; 2; 3; 4]%float [9; 7; 5; 1]%float
  = Ok (-1)%float.
Proof. vm_compute. reflexivity. Qed.

Example errorSpearman_constant :
  errorSpearman (fun _ _ => 0%float) [1; 2; 3]%float [5; 5; 5]%float
  = Ok PrimFloat.nan.
Proof. vm_compute. reflexivity. Qed.

Example errorSpearman_nan :
  errorSpearman (fun _ _ => 0%float) [1; PrimFloat.nan; 3]%float
    [5; 6; 7]%float
  = Ok PrimFloat.nan.
Proof. vm_compute. reflexivity. Qed.

Lemma to_be_minimizedSp_outcome_witness :
  match to_be_minimizedSp (fun _ _ => 0%float) [3]%float [4]%float [10]%float
          (0%float, 0%float) with
  | Ok (Scalar v) => (1 <= 1)%nat -> v = fnan
  | Ok (Array _) => False
  | Raise _ => False
  end.
Proof.
  apply (@to_be_minimizedSp_outcome float float_Num (fun _ _ => 0%float)
           [3]%float [4]%float [10]%float (0%float, 0%float));
    reflexivity.
Defined.

(** ** conecone_CenterProfile *)

Section CenterProfileFacts.
Context {F : Type} {N : Num F}.
Variable ttest_finish : nat -> F -> F.
Variable fmin : (F * F -> result (objective_value F)) -> F * F -> result (F * F).
Context {Start : StartsAtGuess fmin}.

Lemma to_be_minimizedP1_no_points (x y z : list F) (apex_coord : F * F) :
  length x = length y -> length y = length z -> length x = 0%nat ->
  to_be_minimizedP1 x y z apex_coord = Raise TypeError.
Proof.
  intros Exy Eyz E0. unfold to_be_minimizedP1.
  rewrite radius_returns by (try assumption; lia). cbn [bind].
  destruct (radius_profile_lengths x y z (fst apex_coord) (snd apex_coord) Exy)
    as [Lr _].
  unfold errorPolynome, polyfit. change (1 <? 0)%Z with false. cbv iota.
  now rewrite Lr, E0.
Qed.

Lemma to_be_minimizedP1_few_points (x y z : list F) (apex_coord : F * F) :
  length x = length y -> length y = length z -> (length x <= 2)%nat ->
  to_be_minimizedP1 x y z apex_coord = Ok (Array []) \/
  exists e, to_be_minimizedP1 x y z apex_coord = Raise e.
Proof.
  intros Exy Eyz H2. unfold to_be_minimizedP1.
  rewrite radius_returns by (try assumption; lia). cbn [bind].
  destruct (radius_profile_lengths x y z (fst apex_coord) (snd apex_coord) Exy)
    as [Lr _].
  set (rs := gather (distances x y (fst apex_coord) (snd apex_coord)) _) in *.
  set (zs := gather z _).
  pose proof (errorPolynome_line_short rs zs) as Hs.
  destruct (errorPolynome rs zs 1) as [res|e]; cbn [bind].
  - left. rewrite Hs; [reflexivity|]. now rewrite Lr.
  - right. now exists e.
Qed.

(** C2, amended: for control points of one length, the minimiser is run
    on the linear-fit objective and on the rank objective, both from the
    same starting point.  When the two searches return the apexes [c1] and
    [c2], [conecone_CenterProfile] returns the record of [c1], [c2] and of
    the profiles that [radius] computes from the control points at [c1]
    and at [c2].  It does not return for every input: without control
    points it raises [TypeError], and with one or two it raises, the
    linear-fit objective having no number for the minimiser. *)
Theorem conecone_CenterProfile_record (x y z : list F) (x0 y0 : F) :
  length x = length y -> length y = length z ->
  let linear_fit := fun apex : F * F =>
    '(r, zr) <- radius x y z (fst apex) (snd apex) ;;
    res <- errorPolynome r zr 1 ;;
    Ok (Array res) in
  let rank_fit := fun apex : F * F =>
    '(r, zr) <- radius x y z (fst apex) (snd apex) ;;
    rho <- errorSpearman ttest_finish r zr ;;
    Ok (Scalar rho) in
  (length x = 0%nat ->
   conecone_CenterProfile ttest_finish fmin x y z x0 y0 = Raise TypeError) /\
  ((1 <= length x <= 2)%nat ->
   exists e, conecone_CenterProfile ttest_finish fmin x y z x0 y0 = Raise e) /\
  (forall c1 c2,
     fmin linear_fit (x0, y0) = Ok c1 ->
     fmin rank_fit (x0, y0) = Ok c2 ->
     exists r1 z1 r2 z2,
       radius x y z (fst c1) (snd c1) = Ok (r1, z1) /\
       radius x y z (fst c2) (snd c2) = Ok (r2, z2) /\
       conecone_CenterProfile ttest_finish fmin x y z x0 y0 =
       Ok {| BestCenter_LR_xy := c1;
             RadiusModel_controlPoint_LR := r1;
             Elevation_controlPoint_LR := z1;
             BestCenter_Sp_xy := c2;
             RadiusModel_controlPoint_Sp := r2;
             Elevation_controlPoint_Sp := z2 |}).
Proof.
  intros Exy Eyz linear_fit rank_fit.
  change linear_fit with (to_be_minimizedP1 x y z).
  change rank_fit with (to_be_minimizedSp ttest_finish x y z).
  clear linear_fit rank_fit.
  split; [|split].
  - intros E0. unfold conecone_CenterProfile.
    erewrite fmin_start_raises; [reflexivity|].
    now apply to_be_minimizedP1_no_points.
  - intros H12. unfold conecone_CenterProfile.
    assert (R : exists e, fmin (to_be_minimizedP1 x y z) (x0, y0) = Raise e).
    { destruct (to_be_minimizedP1_few_points x y z (x0, y0) Exy Eyz)
        as [H|[e H]]; [lia| |].
      - eapply fmin_start_not_scalar; [exact H | discriminate].
      - exists e. now apply fmin_start_raises. }
    destruct R as [e R]. exists e. now rewrite R.
  - intros c1 c2 H1 H2.
    assert (Hz : (length x <= length z)%nat) by lia.
    pose proof (radius_returns x y z (fst c1) (snd c1) Exy Hz) as R1.
    pose proof (radius_returns x y z (fst c2) (snd c2) Exy Hz) as R2.
    do 4 eexists. split; [exact R1|]. split; [exact R2|].
    unfold conecone_CenterProfile. rewrite H1, H2. cbn [bind].
    rewrite R1. cbn [bind]. rewrite R2. reflexivity.
Qed.

End CenterProfileFacts.

#[export] Instance fmin_no_iteration_starts {F : Type} {N : Num F} :
  StartsAtGuess (fmin_no_iteration (F := F)).
Proof.
  split.
  - intros func x0 e H. unfold fmin_no_iteration. now rewrite H.
  - intros func x0 v H Hv. unfold fmin_no_iteration. rewrite H. cbn [bind].
    destruct v as [|a [|b v]]; [eexists; reflexivity| |eexists; reflexivity].
    now contradiction Hv.
Qed.

(** C2 fails on the code: without control points the first objective
    raises at the starting point and no record is returned. *)
Lemma conecone_CenterProfile_no_points :
  length (@nil float) = length (@nil float) /\
  conecone_CenterProfile (fun _ _ => 0%float) fmin_no_iteration
    [] [] [] 0%float 0%float
  = Raise TypeError.
Proof. split; [reflexivity | vm_compute; reflexivity]. Qed.

Example conecone_CenterProfile_two_points :
  conecone_CenterProfile (fun _ _ => 0%float) fmin_no_iteration
    [3; 0]%float [4; 0]%float [10; 30]%float 1%float 1%float
  = Raise ValueError.
Proof. vm_compute. reflexivity. Qed.

Lemma conecone_CenterProfile_record_witness :
  let x := [3; 0; 6; 1]%float in
  let y := [4; 0; 8; 1]%float in
  let z := [10; 30; 20; 25]%float in
  exists r1 z1 r2 z2,
    radius x y z 0%float 0%float = Ok (r1, z1) /\
    radius x y z 0%float 0%float = Ok (r2, z2) /\
    conecone_CenterProfile (fun _ _ => 0%float) fmin_no_iteration
      x y z 0%float 0%float =
    Ok {| BestCenter_LR_xy := (0%float, 0%float);
          RadiusModel_controlPoint_LR := r1;
          Elevation_controlPoint_LR := z1;
          BestCenter_Sp_xy := (0%float, 0%float);
          RadiusModel_controlPoint_Sp := r2;
          Elevation_controlPoint_Sp := z2 |}.
Proof.
  intros x y z.
  destruct (@conecone_CenterProfile_record float float_Num
              (fun _ _ => 0%float) fmin_no_iteration fmin_no_iteration_starts
              x y z 0%float 0%float eq_refl eq_refl) as (_ & _ & H).
  apply (H (0%float, 0%float) (0%float, 0%float));
    vm_compute; reflexivity.
Defined.

Example conecone_CenterProfile_runs :
  conecone_CenterProfile (fun _ _ => 0%float) fmin_no_iteration
    [3; 0; 6; 1]%float [4; 0; 8; 1]%float [10; 30; 20; 25]%float
    0%float 0%float =
  Ok {| BestCenter_LR_xy := (0%float, 0%float);
        RadiusModel_controlPoint_LR := [0; 0x1.6a09e667f3bcdp+0; 5; 10]%float;
        Elevation_controlPoint_LR := [30; 25; 10; 20]%float;
        BestCenter_Sp_xy := (0%float, 0%float);
        RadiusModel_controlPoint_Sp := [0; 0x1.6a09e667f3bcdp+0; 5; 10]%float;
        Elevation_controlPoint_Sp := [30; 25; 10; 20]%float |}.
Proof. vm_compute. reflexivity. Qed.

Section ProfileFacts.
Context {F : Type} {N : Num F} {T : TotalOrder N}.
Variable ttest_finish : nat -> F -> F.
Variable fmin : (F * F -> result (objective_value F)) -> F * F -> result (F * F).

(** X15: whatever the minimiser does, the two profiles of a returned record
    are well formed: distances in ascending order, N of them, and
    elevations that are a permutation of the input elevations. *)
Theorem conecone_CenterProfile_profiles (x y z : list F) (x0 y0 : F)
  (res : CenterProfile F) :
  length x = length y -> length y = length z ->
  conecone_CenterProfile ttest_finish fmin x y z x0 y0 = Ok res ->
  ascending (RadiusModel_controlPoint_LR res) /\
  ascending (RadiusModel_controlPoint_Sp res) /\
  length (RadiusModel_controlPoint_LR res) = length x /\
  length (RadiusModel_controlPoint_Sp res) = length x /\
  Permutation (Elevation_controlPoint_LR res) z /\
  Permutation (Elevation_controlPoint_Sp res) z.
Proof.
  intros Exy Eyz H. unfold conecone_CenterProfile in H.
  destruct (fmin (to_be_minimizedP1 x y z) (x0, y0)) as [c1|e];
    [|discriminate].
  destruct (fmin (to_be_minimizedSp ttest_finish x y z) (x0, y0)) as [c2|e];
    [|discriminate].
  cbn [bind] in H.
  rewrite !radius_returns in H by (try assumption; lia).
  cbn [bind] in H. injection H as <-. cbn.
  assert (P : forall a b,
             Permutation (argsort (distances x y a b)) (seq 0 (length z))).
  { intros a b. rewrite <- Eyz, <- Exy.
    rewrite <- (distances_length x y a b Exy). apply argsort_perm. }
  repeat split; try apply argsort_ascending;
    try (rewrite gather_length, (Permutation_length (P _ _)), length_seq; lia);
    apply gather_perm_all, P.
Qed.

End ProfileFacts.

Lemma conecone_CenterProfile_profiles_witness :
  let r := gather (distances [3; 0]%R [4; 0]%R 0%R 0%R)
                  (argsort (distances [3; 0]%R [4; 0]%R 0%R 0%R)) in
  let zr := gather [10; 30]%R
                   (argsort (distances [3; 0]%R [4; 0]%R 0%R 0%R)) in
  ascending r /\ ascending r /\
  length r = 2%nat /\ length r = 2%nat /\
  Permutation zr [10; 30]%R /\ Permutation zr [10; 30]%R.
Proof.
  intros r zr.
  apply (@conecone_CenterProfile_profiles R R_Num R_TotalOrder
           (fun _ _ => 0%R) (fun _ x0 => Ok x0)
           [3; 0]%R [4; 0]%R [10; 30]%R 0%R 0%R
           {| BestCenter_LR_xy := (0%R, 0%R);
              RadiusModel_controlPoint_LR := r;
              Elevation_controlPoint_LR := zr;
              BestCenter_Sp_xy := (0%R, 0%R);
              RadiusModel_controlPoint_Sp := r;
              Elevation_controlPoint_Sp := zr |});
    try reflexivity.
  unfold conecone_CenterProfile. cbn [bind fst snd].
  rewrite radius_returns by (simpl; lia). reflexivity.
Defined.

(** ** radius: pairing, ordering and broadcasting *)

Section RadiusMore.
Context {F : Type} {N : Num F}.
Local Open Scope num_scope.

Lemma combine_gather (a b : list F) (index : list nat) :
  combine (gather a index) (gather b index)
  = map (fun i => (nth i a fzero, nth i b fzero)) index.
Proof.
  induction index as [|i index IH]; simpl; [reflexivity|]. now rewrite IH.
Qed.

Lemma pairs_read_back (a b : list F) :
  length a = length b ->
  map (fun i => (nth i a fzero, nth i b fzero)) (seq 0 (length a))
  = combine a b.
Proof.
  intros E. apply nth_ext with (d := (fzero, fzero)) (d' := (fzero, fzero)).
  - rewrite length_map, length_seq, length_combine. lia.
  - intros i Hi. rewrite length_map, length_seq in Hi.
    rewrite (nth_indep _ (fzero, fzero) (nth 0 a fzero, nth 0 b fzero))
      by (now rewrite length_map, length_seq).
    rewrite (map_nth (fun i => (nth i a fzero, nth i b fzero))).
    rewrite seq_nth by assumption. simpl.
    now rewrite combine_nth.
Qed.

(** X1: each returned elevation stays with the distance of its own control
    point: the returned pairs are the input pairs in another order. *)
Theorem radius_keeps_pairs (x y z : list F) (xa ya : F) :
  length x = length y -> length y = length z ->
  exists rs zs,
    radius x y z xa ya = Ok (rs, zs) /\
    Permutation (combine rs zs) (combine (distances x y xa ya) z).
Proof.
  intros Exy Eyz.
  rewrite radius_returns by (try assumption; lia).
  do 2 eexists. split; [reflexivity|].
  rewrite combine_gather.
  rewrite <- pairs_read_back
    by (rewrite distances_length by assumption; lia).
  apply Permutation_map, argsort_perm.
Qed.

(** X2: the order of the output is decided by the positions alone: one index
    permutation serves every elevation sequence, whatever its values. *)
Theorem radius_order_ignores_elevations (x y : list F) (xa ya : F) :
  length x = length y ->
  exists index,
    Permutation index (seq 0 (length x)) /\
    forall z, (length x <= length z)%nat ->
      radius x y z xa ya
      = Ok (gather (distances x y xa ya) index, gather z index).
Proof.
  intros Exy. exists (argsort (distances x y xa ya)). split.
  - rewrite <- (distances_length x y xa ya Exy). apply argsort_perm.
  - intros z Hz. now apply radius_returns.
Qed.

Lemma zip_with_repeat (f : F -> F -> F) (u : F) (b : list F) :
  zip_with f (repeat u (length b)) b = map (f u) b.
Proof.
  induction b as [|v b IH]; simpl; [reflexivity|]. now rewrite IH.
Qed.

(** X3: a single [x] is stretched over all of [y] by numpy's broadcasting:
    the call behaves as if [x] had been repeated. *)
Theorem radius_single_x_is_repeated (u : F) (y z : list F) (xa ya : F) :
  radius [u] y z xa ya = radius (repeat u (length y)) y z xa ya.
Proof.
  unfold radius.
  replace (broadcast2 fadd (map (fun u0 => fsqr (u0 - xa)) (repeat u (length y)))
             (map (fun v => fsqr (v - ya)) y))
    with (broadcast2 fadd (map (fun u0 => fsqr (u0 - xa)) [u])
            (map (fun v => fsqr (v - ya)) y)); [reflexivity|].
  symmetry.
  rewrite broadcast2_same_length
    by (now rewrite !length_map, repeat_length).
  rewrite map_repeat.
  rewrite <- (length_map (fun v => fsqr (v - ya)) y), zip_with_repeat.
  reflexivity.
Qed.

End RadiusMore.

Lemma radius_keeps_pairs_witness :
  exists rs zs,
    radius [3; 0; 6]%float [4; 0; 8]%float [10; 30; 20]%float 0%float 0%float
    = Ok (rs, zs) /\
    Permutation (combine rs zs)
      (combine (distances [3; 0; 6]%float [4; 0; 8]%float 0%float 0%float)
               [10; 30; 20]%float).
Proof.
  apply (@radius_keeps_pairs float float_Num [3; 0; 6]%float [4; 0; 8]%float
           [10; 30; 20]%float 0%float 0%float); reflexivity.
Defined.

Lemma radius_order_ignores_elevations_witness :
  exists index,
    Permutation index (seq 0 3) /\
    forall z, (3 <= length z)%nat ->
      radius [3; 0; 6]%float [4; 0; 8]%float z 0%float 0%float
      = Ok (gather (distances [3; 0; 6]%float [4; 0; 8]%float 0%float 0%float)
              index, gather z index).
Proof.
  apply (@radius_order_ignores_elevations float float_Num
           [3; 0; 6]%float [4; 0; 8]%float 0%float 0%float); reflexivity.
Defined.
